(** * A pointer-bumping heap allocator (pb-alloc.c)

    Shallow embedding of [init], [malloc], [free], [calloc] and [realloc]
    of [pb-alloc.c], for an LP64 platform: [size_t] is an unsigned and
    [intptr_t] a signed 64-bit integer, [sizeof(header_s)] is 8, and
    the header's [size] field is stored little-endian.  The allocator is
    modelled in its release configuration, in which the [DEBUG] macro of
    [safeio.h] expands to nothing.

    Integers are [Z] with the wrap-around of every C conversion written
    out; the three globals and the byte-addressed memory form the state,
    which is threaded through the entry points by a small state and
    error monad ([Fatal] is [safe_error] terminating the process). *)

From Stdlib Require Import ZArith Lia List Bool Ascii.
From coqutil Require Import Byte Word.LittleEndianList.
Import ListNotations.
Local Open Scope Z_scope.

(** ** Machine integers *)

Module Mach.

Definition width : Z := 64.
Definition modulus : Z := Eval cbv in 2 ^ 64.
Definition half_modulus : Z := Eval cbv in 2 ^ 63.

(** Conversion to [size_t] (and to a pointer): reduction modulo [2^64]. *)
Definition size_t (x : Z) : Z := x mod modulus.

(** Conversion to [intptr_t]: the two's complement reading. *)
Definition intptr_t (x : Z) : Z := (x + half_modulus) mod modulus - half_modulus.

End Mach.
Import Mach.

(** ** Macro constants *)

Definition DBL_WORD_SIZE : Z := 16.
Definition KB (size : Z) : Z := size_t (size_t size * 1024).
Definition MB (size : Z) : Z := size_t (KB size * 1024).
Definition GB (size : Z) : Z := size_t (MB size * 1024).
Definition HEAP_SIZE : Z := GB 2.

(** [sizeof(header_s)]: one [size_t] field. *)
Definition sizeof_header : Z := 8.

Definition NULL : Z := 0.

(** [MAP_FAILED] is [(void* )-1]; as an [intptr_t] it reads [-1]. *)
Definition MAP_FAILED : Z := -1.

(** ** Memory and the globals *)

Definition memory : Type := Z -> byte.

Fixpoint store_bytes (m : memory) (a : Z) (bs : list byte) : memory :=
  match bs with
  | [] => m
  | b :: bs' => store_bytes (fun x => if x =? a then b else m x) (a + 1) bs'
  end.

Fixpoint load_bytes (m : memory) (a : Z) (n : nat) : list byte :=
  match n with
  | O => []
  | S n' => m a :: load_bytes m (a + 1) n'
  end.

(** Writing and reading the [size] field of a [header_s] at address [a]. *)
Definition store_size (m : memory) (a : Z) (v : Z) : memory :=
  store_bytes m a (le_split (Z.to_nat sizeof_header) v).

Definition load_size (m : memory) (a : Z) : Z :=
  le_combine (load_bytes m a (Z.to_nat sizeof_header)).

(** The C library's [memset] and [memcpy] on [n] bytes ([memcpy] reads
    its source as it was before the call, which is what the C standard
    defines for the non-overlapping ranges it allows). *)
Definition memset_bytes (m : memory) (p : Z) (c : byte) (n : Z) : memory :=
  fun a => if (p <=? a) && (a <? p + n) then c else m a.

Definition memcpy_bytes (m : memory) (dst src : Z) (n : Z) : memory :=
  fun a => if (dst <=? a) && (a <? dst + n) then m (src + (a - dst)) else m a.

Record state : Type := mkState {
  free_addr : Z;   (* the next available byte of the heap region *)
  start_addr : Z;  (* the beginning of the heap *)
  end_addr : Z;    (* the end of the heap *)
  mem : memory
}.

Definition set_free_addr (v : Z) (s : state) : state :=
  mkState v (start_addr s) (end_addr s) (mem s).

Definition set_mem (m : memory) (s : state) : state :=
  mkState (free_addr s) (start_addr s) (end_addr s) m.

(** The globals before the first call; the anonymous mapping comes
    zero-filled. *)
Definition initial_state : state :=
  mkState 0 0 0 (fun _ => Byte.x00).

(** ** The monad of the entry points *)

Inductive outcome (A : Type) : Type :=
| Ret (a : A) (s : state)
| Fatal.
Arguments Ret {A} a s.
Arguments Fatal {A}.

Definition M (A : Type) : Type := state -> outcome A.

Definition ret {A} (a : A) : M A := fun s => Ret a s.

Definition bind {A B} (c : M A) (k : A -> M B) : M B :=
  fun s => match c s with
           | Ret a s' => k a s'
           | Fatal => Fatal
           end.

Definition get {A} (f : state -> A) : M A := fun s => Ret (f s) s.
Definition modify (f : state -> state) : M unit := fun s => Ret tt (f s).
Definition ERROR {A} : M A := fun _ => Fatal.

Notation "x <- c ;; k" := (bind c (fun x => k))
  (at level 61, c at next level, right associativity).
Notation "c ;;; k" := (bind c (fun _ => k))
  (at level 61, right associativity).

(** ** The allocator *)

Section Allocator.

(** What [mmap] answers to the one reservation request of [init], as an
    [intptr_t]: the address of the mapping, or [MAP_FAILED]. *)
Variable heap : Z.

Definition init : M unit :=
  start <- get start_addr ;;
  if start =? 0 then
    (if heap =? MAP_FAILED then ERROR else ret tt) ;;;
    modify (fun s =>
      let start_addr' := heap in
      let end_addr' := intptr_t (size_t (start_addr' + HEAP_SIZE)) in
      mkState start_addr' start_addr' end_addr' (mem s))
  else ret tt.

(** [(sizeof(header_s) + DBL_WORD_SIZE - (free_addr % DBL_WORD_SIZE))
    % DBL_WORD_SIZE]: [%] on the [intptr_t] is C's truncating
    remainder, the subtraction and the outer [%] are done in [size_t]. *)
Definition padding_of (free : Z) : Z :=
  intptr_t
    (size_t (size_t (sizeof_header + DBL_WORD_SIZE)
             - Z.rem free DBL_WORD_SIZE) mod DBL_WORD_SIZE).

Definition malloc (size : Z) : M Z :=
  init ;;;
  free <- get free_addr ;;
  let padding := padding_of free in
  modify (set_free_addr (intptr_t (free + padding))) ;;;
  if size =? 0 then ret NULL
  else
    let total_size := size_t (size + sizeof_header) in
    free <- get free_addr ;;
    let header_ptr := size_t free in
    let block_ptr := size_t (free + sizeof_header) in
    let new_free_addr := intptr_t (size_t (free + total_size)) in
    end_ <- get end_addr ;;
    if new_free_addr >? end_ then ret NULL
    else
      modify (set_free_addr new_free_addr) ;;;
      modify (fun s => set_mem (store_size (mem s) header_ptr size) s) ;;;
      ret block_ptr.

Definition free (ptr : Z) : M unit := ret tt.

Definition memset (p : Z) (c : byte) (n : Z) : M unit :=
  modify (fun s => set_mem (memset_bytes (mem s) p c n) s).

Definition memcpy (dst src : Z) (n : Z) : M unit :=
  modify (fun s => set_mem (memcpy_bytes (mem s) dst src n) s).

Definition calloc (nmemb size : Z) : M Z :=
  let block_size := size_t (nmemb * size) in
  block_ptr <- malloc block_size ;;
  (if negb (block_ptr =? NULL) then memset block_ptr Byte.x00 block_size
   else ret tt) ;;;
  ret block_ptr.

Definition realloc (ptr : Z) (size : Z) : M Z :=
  if ptr =? NULL then malloc size
  else if size =? 0 then free ptr ;;; ret NULL
  else
    let old_header := size_t (ptr - sizeof_header) in
    old_size <- get (fun s => load_size (mem s) old_header) ;;
    if size <=? old_size then ret ptr
    else
      new_ptr <- malloc size ;;
      (if negb (new_ptr =? NULL) then
         memcpy new_ptr ptr old_size ;;; free ptr
       else ret tt) ;;;
      ret new_ptr.

(** *** Calls and reachable states *)

Inductive call : Type :=
| Malloc (size : Z)
| Free (ptr : Z)
| Calloc (nmemb size : Z)
| Realloc (ptr size : Z).

(** Arguments are [size_t] values and pointers. *)
Definition in_range (x : Z) : Prop := 0 <= x < modulus.

Definition valid_call (c : call) : Prop :=
  match c with
  | Malloc size => in_range size
  | Free ptr => in_range ptr
  | Calloc nmemb size => in_range nmemb /\ in_range size
  | Realloc ptr size => in_range ptr /\ in_range size
  end.

(** The pointer a call returns ([free] returns nothing: [NULL] here). *)
Definition run (c : call) : M Z :=
  match c with
  | Malloc size => malloc size
  | Free ptr => free ptr ;;; ret NULL
  | Calloc nmemb size => calloc nmemb size
  | Realloc ptr size => realloc ptr size
  end.

Inductive reachable : state -> Prop :=
| reachable_initial : reachable initial_state
| reachable_call s c r s' :
    reachable s -> valid_call c -> run c s = Ret r s' -> reachable s'.

End Allocator.

(** ** Notions used in the statements *)

(** The cursor once [malloc] has added the alignment padding. *)
Definition padded (s : state) : Z :=
  intptr_t (free_addr s + padding_of (free_addr s)).

(** [new_free_addr] as [malloc] computes it for a request of [size]. *)
Definition bumped (s : state) (size : Z) : Z :=
  intptr_t (size_t (padded s + size_t (size + sizeof_header))).

(** The state [malloc] leaves when it returns [NULL], and the one it
    leaves when it commits a block of [size] bytes. *)
Definition refused (s : state) : state := set_free_addr (padded s) s.

Definition committed (s : state) (size : Z) : state :=
  mkState (bumped s size) (start_addr s) (end_addr s)
          (store_size (mem s) (size_t (padded s)) size).

Definition block_of (s : state) : Z := size_t (padded s + sizeof_header).

(** The number of payload bytes a call asks [malloc] for. *)
Definition request (c : call) : Z :=
  match c with
  | Malloc size => size
  | Free _ => 0
  | Calloc nmemb size => size_t (nmemb * size)
  | Realloc _ size => size
  end.

(** An address a successful [mmap] can answer: not null, aligned (pages
    are), and with the region well inside the positive [intptr_t]s. *)
Definition mmap_ok (heap : Z) : Prop :=
  0 < heap /\ heap mod DBL_WORD_SIZE = 0 /\
  heap + HEAP_SIZE + 2 * DBL_WORD_SIZE < half_modulus.

(** A request is within reach of the address arithmetic when the end of
    the region, the padding, the header and the payload together stay
    below [2^63]. *)
Definition fits (heap : Z) (size : Z) : Prop :=
  heap + HEAP_SIZE + sizeof_header + sizeof_header + size < half_modulus.

(** The region is reserved at [heap] and the cursor is inside it, or at
    most one padding past its end. *)
Definition initialized (heap : Z) (s : state) : Prop :=
  start_addr s = heap /\ end_addr s = heap + HEAP_SIZE /\
  start_addr s <= free_addr s <= end_addr s + sizeof_header.

(** The states the allocator is in as long as every request fits: not
    yet reserved, or reserved with the cursor in bounds. *)
Definition region_inv (heap : Z) (s : state) : Prop :=
  (start_addr s = 0 /\ free_addr s = 0 /\ end_addr s = 0) \/ initialized heap s.

Inductive reachable_fit (heap : Z) : state -> Prop :=
| reachable_fit_initial : reachable_fit heap initial_state
| reachable_fit_call s c r s' :
    reachable_fit heap s -> valid_call c -> fits heap (request c) ->
    run heap c s = Ret r s' -> reachable_fit heap s'.

(** [ptr] is the payload of a block of [size] bytes the allocator owns:
    header and payload lie inside the region, below the cursor, and the
    header records [size]. *)
Definition owned_block (s : state) (ptr size : Z) : Prop :=
  start_addr s + sizeof_header <= ptr /\ ptr + size <= free_addr s /\
  ptr + size <= end_addr s /\
  load_size (mem s) (size_t (ptr - sizeof_header)) = size.

(** The addresses used in the examples: a page-aligned mapping. *)
Definition heap0 : Z := 139637976727552.

(** The region right after the first [init], after one [malloc(7)], and
    after one [malloc] that takes the region up to its very end. *)
Definition fresh0 : state :=
  mkState heap0 heap0 (heap0 + HEAP_SIZE) (fun _ => Byte.x00).

Definition one_block0 : state := committed fresh0 7.

Definition full0 : state := committed fresh0 (HEAP_SIZE - DBL_WORD_SIZE).

(** A run of [malloc] calls, with the payload range each one returned. *)
Fixpoint malloc_seq (heap : Z) (sizes : list Z) : M (list (Z * Z)) :=
  match sizes with
  | [] => ret []
  | size :: rest =>
      p <- malloc heap size ;;
      blocks <- malloc_seq heap rest ;;
      ret ((p, size) :: blocks)
  end.

(** The ranges [[p1, p1 + n1)] and [[p2, p2 + n2)] have no byte in common. *)
Definition disjoint_ranges (b1 b2 : Z * Z) : Prop :=
  fst b1 + snd b1 <= fst b2 \/ fst b2 + snd b2 <= fst b1.

(** ** Diagnostics ([safeio.c]) *)

Definition BITS_PER_NYBBLE : Z := 4.
Definition NYBBLE_MASK : Z := 15.

(** [BITS_PER_WORD / BITS_PER_NYBBLE], with [sizeof(intptr_t)] = 8. *)
Definition NYBBLES_PER_WORD : nat := 16.

Definition MAX_MESSAGE_LENGTH : nat := 256.

Definition NUL : ascii := "000"%char.
Definition TAB_STRING : list ascii := ["009"%char].
Definition NEWLINE_STRING : list ascii := ["010"%char].

Definition hex_digits : list ascii :=
  ["0"; "1"; "2"; "3"; "4"; "5"; "6"; "7";
   "8"; "9"; "a"; "b"; "c"; "d"; "e"; "f"]%char.

(** The loop of [int_to_hex] with [n] iterations to go, that is for
    [i = n - 1] down to [0]; [out] is what has been written through
    [current] so far. *)
Fixpoint int_to_hex_loop (n : nat) (value : Z) (non_zero : bool)
    (out : list ascii) : bool * list ascii :=
  match n with
  | O => (non_zero, out)
  | S i =>
      let nybble :=
        Z.land (Z.shiftr value (Z.of_nat i * BITS_PER_NYBBLE)) NYBBLE_MASK in
      if non_zero || negb (nybble =? 0) then
        int_to_hex_loop i value true
          (out ++ [nth (Z.to_nat nybble) hex_digits "0"%char])
      else int_to_hex_loop i value non_zero out
  end.

(** The characters [int_to_hex] leaves in [buffer] before the
    terminating NUL, for a [uint64_t] [value]. *)
Definition int_to_hex (value : Z) : list ascii :=
  let '(non_zero, out) := int_to_hex_loop NYBBLES_PER_WORD value false [] in
  if negb non_zero then out ++ ["0"%char] else out.

(** [strnlen]: the characters before the first NUL, at most [maxlen];
    the end of the list stands for the terminator. *)
Fixpoint strnlen (s : list ascii) (maxlen : nat) : nat :=
  match maxlen, s with
  | S m, c :: s' => if Ascii.eqb c NUL then O else S (strnlen s' m)
  | _, _ => O
  end.

(** [write(OUTPUT_FD, s, strnlen(s, MAX_MESSAGE_LENGTH))]: what reaches
    the stream. *)
Definition write_str (s : list ascii) : list ascii :=
  firstn (strnlen s MAX_MESSAGE_LENGTH) s.

(** What [emit] writes for [argc = length args] integer arguments. *)
Definition emit (prefix msg : list ascii) (args : list Z) : list ascii :=
  write_str prefix ++ write_str msg ++
  flat_map (fun value => TAB_STRING ++ write_str (int_to_hex value)) args ++
  NEWLINE_STRING.

(** Reading a string of hexadecimal digits back. *)
Fixpoint index_of (c : ascii) (l : list ascii) : nat :=
  match l with
  | [] => O
  | d :: l' => if Ascii.eqb c d then O else S (index_of c l')
  end.

Definition digit_value (c : ascii) : Z := Z.of_nat (index_of c hex_digits).

Definition hex_value (s : list ascii) : Z :=
  fold_left (fun acc c => acc * 16 + digit_value c) s 0.

(** The pointer arguments of a call are double-word aligned. *)
Definition aligned_args (c : call) : Prop :=
  match c with
  | Realloc ptr _ => ptr mod DBL_WORD_SIZE = 0
  | _ => True
  end.

(** What holds of [int_to_hex]'s loop with [n] iterations to go: the
    digits written so far read as the nybbles of [v] above the lowest
    [n], without a leading zero; nothing is written before the first
    non-zero nybble. *)
Definition hex_state (v : Z) (n : nat) (non_zero : bool) (out : list ascii) : Prop :=
  Forall (fun c => In c hex_digits) out /\
  (length out + n <= 16)%nat /\
  if non_zero then
    hex_value out = v / 16 ^ Z.of_nat n /\
    exists c rest, out = c :: rest /\ c <> "0"%char
  else out = [] /\ v / 16 ^ Z.of_nat n = 0.

(** * Properties *)

(** ** Arithmetic of the conversions *)

Ltac unfold_mach :=
  unfold block_of, bumped, padded, padding_of, size_t, intptr_t, in_range,
    modulus, half_modulus, DBL_WORD_SIZE, sizeof_header, NULL, MAP_FAILED in *.

Ltac mach_lia := unfold_mach; Z.to_euclidean_division_equations; lia.

Lemma HEAP_SIZE_eq : HEAP_SIZE = 2147483648.
Proof. reflexivity. Qed.

Lemma size_t_small x : 0 <= x < modulus -> size_t x = x.
Proof. intros; mach_lia. Qed.

Lemma intptr_t_small x : - half_modulus <= x < half_modulus -> intptr_t x = x.
Proof. intros; mach_lia. Qed.

Lemma size_t_range x : in_range (size_t x).
Proof. mach_lia. Qed.

Lemma padding_range f : 0 <= padding_of f < DBL_WORD_SIZE.
Proof. mach_lia. Qed.

Lemma padding_aligns f : (f + padding_of f) mod DBL_WORD_SIZE = sizeof_header.
Proof. mach_lia. Qed.

Lemma block_of_aligned s : block_of s mod DBL_WORD_SIZE = 0.
Proof. mach_lia. Qed.

Lemma padded_nowrap s :
  - half_modulus <= free_addr s -> free_addr s + DBL_WORD_SIZE <= half_modulus ->
  padded s = free_addr s + padding_of (free_addr s).
Proof.
  intros Hlo Hhi. unfold padded. apply intptr_t_small.
  pose proof (padding_range (free_addr s)). unfold DBL_WORD_SIZE in *. lia.
Qed.

(** ** Memory *)

Lemma store_bytes_outside bs : forall m a x,
  x < a \/ a + Z.of_nat (length bs) <= x -> store_bytes m a bs x = m x.
Proof.
  induction bs as [|b bs IH]; intros m a x Hx; simpl; [reflexivity|].
  rewrite IH by (simpl length in Hx; lia).
  destruct (Z.eqb_spec x a); [simpl length in Hx; lia | reflexivity].
Qed.

Lemma load_store_bytes bs : forall m a,
  load_bytes (store_bytes m a bs) a (length bs) = bs.
Proof.
  induction bs as [|b bs IH]; intros m a; simpl; [reflexivity|].
  rewrite IH. f_equal.
  rewrite store_bytes_outside by lia.
  now rewrite Z.eqb_refl.
Qed.

Lemma load_bytes_ext n : forall m1 m2 a,
  (forall x, a <= x < a + Z.of_nat n -> m1 x = m2 x) ->
  load_bytes m1 a n = load_bytes m2 a n.
Proof.
  induction n as [|n IH]; intros m1 m2 a Hagree; simpl; [reflexivity|].
  f_equal; [apply Hagree; lia | apply IH; intros x Hx; apply Hagree; lia].
Qed.

Lemma load_store_size m a v : in_range v -> load_size (store_size m a v) a = v.
Proof.
  intros Hv. unfold load_size, store_size.
  set (n := Z.to_nat sizeof_header).
  rewrite <- (length_le_split n v) at 2.
  rewrite load_store_bytes, le_combine_split.
  apply Z.mod_small. exact Hv.
Qed.

Lemma store_size_outside m a v x :
  x < a \/ a + sizeof_header <= x -> store_size m a v x = m x.
Proof.
  intros Hx. unfold store_size. apply store_bytes_outside.
  rewrite length_le_split. unfold sizeof_header in *. simpl. lia.
Qed.

Lemma load_size_ext m1 m2 a :
  (forall x, a <= x < a + sizeof_header -> m1 x = m2 x) ->
  load_size m1 a = load_size m2 a.
Proof.
  intros Hagree. unfold load_size. f_equal. apply load_bytes_ext.
  intros x Hx. apply Hagree. unfold sizeof_header in *. simpl in Hx. lia.
Qed.

Lemma load_size_range m a : in_range (load_size m a).
Proof.
  unfold load_size, in_range.
  set (bs := load_bytes m a (Z.to_nat sizeof_header)).
  assert (Hlen : length bs = 8%nat) by reflexivity.
  rewrite <- (split_le_combine bs), Hlen, le_combine_split.
  apply Z.mod_pos_bound. reflexivity.
Qed.

(** ** The equations of [init] and [malloc] *)

Ltac unfold_monad := unfold bind, get, modify, ret, ERROR in *.

Section Equations.

Variable heap : Z.

Lemma init_initialized s : start_addr s <> 0 -> init heap s = Ret tt s.
Proof.
  intros Hs. unfold init; unfold_monad.
  destruct (Z.eqb_spec (start_addr s) 0); [contradiction | reflexivity].
Qed.

Lemma init_first s :
  start_addr s = 0 -> heap <> MAP_FAILED ->
  init heap s =
  Ret tt (mkState heap heap (intptr_t (size_t (heap + HEAP_SIZE))) (mem s)).
Proof.
  intros Hs Hh. unfold init; unfold_monad. rewrite Hs. simpl.
  destruct (Z.eqb_spec heap MAP_FAILED); [contradiction | reflexivity].
Qed.

Lemma init_fatal s :
  start_addr s = 0 -> heap = MAP_FAILED -> init heap s = Fatal.
Proof.
  intros Hs Hh. unfold init; unfold_monad. rewrite Hs, Hh. reflexivity.
Qed.

Lemma init_cases s :
  (start_addr s <> 0 /\ init heap s = Ret tt s) \/
  (start_addr s = 0 /\ heap <> MAP_FAILED /\
   init heap s =
   Ret tt (mkState heap heap (intptr_t (size_t (heap + HEAP_SIZE))) (mem s))) \/
  (start_addr s = 0 /\ heap = MAP_FAILED /\ init heap s = Fatal).
Proof.
  destruct (Z.eq_dec (start_addr s) 0) as [Hs|Hs].
  - destruct (Z.eq_dec heap MAP_FAILED) as [Hh|Hh].
    + right; right. auto using init_fatal.
    + right; left. auto using init_first.
  - left. auto using init_initialized.
Qed.

Lemma init_mem s u s0 : init heap s = Ret u s0 -> mem s0 = mem s.
Proof.
  destruct (init_cases s) as [[_ E]|[[_ [_ E]]|[_ [_ E]]]];
    rewrite E; intros H; inversion H; reflexivity.
Qed.

Lemma init_started s u s0 :
  init heap s = Ret u s0 -> heap <> 0 -> start_addr s0 <> 0.
Proof.
  destruct (init_cases s) as [[Hs E]|[[_ [_ E]]|[_ [_ E]]]];
    rewrite E; intros H Hh; inversion H; subst; simpl; assumption.
Qed.

Lemma malloc_fatal size s : init heap s = Fatal -> malloc heap size s = Fatal.
Proof. intros E. unfold malloc; unfold_monad. now rewrite E. Qed.

Lemma malloc_zero s u s0 :
  init heap s = Ret u s0 -> malloc heap 0 s = Ret NULL (refused s0).
Proof. intros E. unfold malloc; unfold_monad. now rewrite E. Qed.

Lemma malloc_exhausted size s u s0 :
  init heap s = Ret u s0 -> size <> 0 -> bumped s0 size > end_addr s0 ->
  malloc heap size s = Ret NULL (refused s0).
Proof.
  intros E Hsz Hgt. unfold malloc; unfold_monad. rewrite E.
  destruct (Z.eqb_spec size 0); [contradiction|]. simpl.
  fold (padded s0). fold (bumped s0 size).
  destruct (Z.gtb_spec (bumped s0 size) (end_addr s0)); [reflexivity | lia].
Qed.

Lemma malloc_commit size s u s0 :
  init heap s = Ret u s0 -> size <> 0 -> bumped s0 size <= end_addr s0 ->
  malloc heap size s = Ret (block_of s0) (committed s0 size).
Proof.
  intros E Hsz Hle. unfold malloc; unfold_monad. rewrite E.
  destruct (Z.eqb_spec size 0); [contradiction|]. simpl.
  fold (padded s0). fold (bumped s0 size).
  destruct (Z.gtb_spec (bumped s0 size) (end_addr s0)); [lia | reflexivity].
Qed.

(** Every way [malloc] returns. *)
Lemma malloc_inv size s p s' :
  malloc heap size s = Ret p s' ->
  exists s0, init heap s = Ret tt s0 /\
    ((p = NULL /\ s' = refused s0 /\
      (size = 0 \/ bumped s0 size > end_addr s0)) \/
     (p = block_of s0 /\ s' = committed s0 size /\
      size <> 0 /\ bumped s0 size <= end_addr s0)).
Proof.
  intros Hm. destruct (init heap s) as [[] s0|] eqn:E.
  - exists s0. split; [reflexivity|].
    destruct (Z.eq_dec size 0) as [->|Hsz].
    + rewrite (malloc_zero _ _ _ E) in Hm. inversion Hm. left; auto.
    + destruct (Z_gt_le_dec (bumped s0 size) (end_addr s0)) as [Hgt|Hle].
      * rewrite (malloc_exhausted _ _ _ _ E Hsz Hgt) in Hm.
        inversion Hm. left; auto.
      * rewrite (malloc_commit _ _ _ _ E Hsz Hle) in Hm.
        inversion Hm. right; auto.
  - rewrite (malloc_fatal _ _ E) in Hm. discriminate.
Qed.

(** [malloc] returns whenever [init] does. *)
Lemma malloc_returns size s u s0 :
  init heap s = Ret u s0 -> exists p s', malloc heap size s = Ret p s'.
Proof.
  intros E. destruct (Z.eq_dec size 0) as [->|Hsz].
  - eauto using malloc_zero.
  - destruct (Z_gt_le_dec (bumped s0 size) (end_addr s0)).
    + eauto using malloc_exhausted.
    + eauto using malloc_commit.
Qed.

End Equations.

(** * The entry points *)

(** ** [malloc]: alignment *)

(** C3. For every request size and every state (so in particular every
    reachable state of a region whose start is double-word aligned), a
    pointer returned by the allocation routine is a multiple of
    [DBL_WORD_SIZE] = 16. *)
Theorem malloc_aligned heap size s p s' :
  malloc heap size s = Ret p s' -> p mod DBL_WORD_SIZE = 0.
Proof.
  intros Hm. apply malloc_inv in Hm.
  destruct Hm as [s0 [_ [[-> _] | [-> _]]]].
  - reflexivity.
  - apply block_of_aligned.
Qed.

Lemma malloc_aligned_witness :
  malloc heap0 24 initial_state = Ret (heap0 + 16) (committed fresh0 24) /\
  (heap0 + 16) mod DBL_WORD_SIZE = 0.
Proof.
  assert (H : malloc heap0 24 initial_state
              = Ret (heap0 + 16) (committed fresh0 24)) by (vm_compute; reflexivity).
  split; [exact H | exact (malloc_aligned heap0 24 initial_state _ _ H)].
Defined.

(** ** [free] *)

(** C10. The deallocation routine is a no-op: whatever pointer it is
    given (null, a block, a pointer the allocator never returned, a block
    already deallocated, as in the second of two calls in a row), it
    returns with the very state it was called in, so [start_addr],
    [end_addr], [free_addr] and every byte of the memory are unchanged;
    it inspects neither the pointer nor the state. *)
Theorem free_noop heap ptr s :
  free ptr s = Ret tt s /\
  (free ptr ;;; free ptr) s = Ret tt s /\
  run heap (Free ptr) s = Ret NULL s /\
  forall u s', free ptr s = Ret u s' ->
    start_addr s' = start_addr s /\ end_addr s' = end_addr s /\
    free_addr s' = free_addr s /\ forall a, mem s' a = mem s a.
Proof.
  split; [reflexivity|].
  split; [reflexivity|].
  split; [reflexivity|].
  intros u s' Hfree. unfold free, ret in Hfree.
  inversion Hfree; subst. repeat split.
Qed.

(** ** [realloc]: the paths that do not allocate *)

(** C5. For a non-null [ptr] whose header stores [old] and a new size
    with [0 < new <= old], [realloc] returns [ptr] itself and leaves the
    state as it was; the header still records [old]. *)
Theorem realloc_shrink_identity heap ptr old new s :
  ptr <> NULL ->
  load_size (mem s) (size_t (ptr - sizeof_header)) = old ->
  0 < new <= old ->
  exists s', realloc heap ptr new s = Ret ptr s' /\ s' = s /\
             load_size (mem s') (size_t (ptr - sizeof_header)) = old.
Proof.
  intros Hptr Hold Hnew. exists s. split; [|split; auto].
  unfold realloc; unfold_monad.
  destruct (Z.eqb_spec ptr NULL); [contradiction|].
  destruct (Z.eqb_spec new 0); [lia|].
  rewrite Hold.
  destruct (Z.leb_spec new old); [reflexivity | lia].
Qed.

Lemma realloc_shrink_identity_witness :
  heap0 + 16 <> NULL /\
  load_size (mem one_block0) (size_t (heap0 + 16 - sizeof_header)) = 7 /\
  0 < 5 <= 7 /\
  exists s', realloc heap0 (heap0 + 16) 5 one_block0 = Ret (heap0 + 16) s' /\
             s' = one_block0 /\
             load_size (mem s') (size_t (heap0 + 16 - sizeof_header)) = 7.
Proof.
  assert (H1 : heap0 + 16 <> NULL) by (vm_compute; discriminate).
  assert (H2 : load_size (mem one_block0) (size_t (heap0 + 16 - sizeof_header)) = 7)
    by (vm_compute; reflexivity).
  assert (H3 : 0 < 5 <= 7) by lia.
  repeat split; try assumption; try lia.
  exact (realloc_shrink_identity heap0 (heap0 + 16) 7 5 one_block0 H1 H2 H3).
Defined.

(** ** Zero-size requests *)

(** C9. Whenever the region is or can be reserved, [malloc(0)] returns
    [NULL]; the state it leaves is the initialized one with only the
    cursor advanced by the alignment padding (between 0 and 15 bytes),
    so no header is written and memory is as before.  For a non-null
    [ptr], [realloc(ptr, 0)] is [free(ptr)] followed by returning
    [NULL]. *)
Theorem zero_size_null heap s :
  start_addr s <> 0 \/ heap <> MAP_FAILED ->
  exists s0, init heap s = Ret tt s0 /\
    malloc heap 0 s
    = Ret NULL (set_free_addr
                  (intptr_t (free_addr s0 + padding_of (free_addr s0))) s0) /\
    0 <= padding_of (free_addr s0) < DBL_WORD_SIZE /\
    mem s0 = mem s /\
    forall ptr, ptr <> NULL ->
      realloc heap ptr 0 s = (free ptr ;;; ret NULL) s /\
      realloc heap ptr 0 s = Ret NULL s.
Proof.
  intros Hinit.
  assert (E : exists s0, init heap s = Ret tt s0).
  { destruct (init_cases heap s) as [[_ E]|[[_ [_ E]]|[Hs [Hh _]]]]; eauto.
    destruct Hinit; contradiction. }
  destruct E as [s0 E]. exists s0.
  split; [exact E|]. split; [exact (malloc_zero heap s tt s0 E)|].
  split; [apply padding_range|]. split; [exact (init_mem heap s tt s0 E)|].
  intros ptr Hptr. unfold realloc.
  destruct (Z.eqb_spec ptr NULL); [contradiction|]. simpl. split; reflexivity.
Qed.

Lemma zero_size_null_witness :
  (start_addr initial_state <> 0 \/ heap0 <> MAP_FAILED) /\
  malloc heap0 0 initial_state = Ret NULL (set_free_addr (heap0 + 8) fresh0).
Proof.
  assert (H : start_addr initial_state <> 0 \/ heap0 <> MAP_FAILED)
    by (right; vm_compute; discriminate).
  split; [exact H|].
  destruct (zero_size_null heap0 initial_state H) as [s0 [E [Hm _]]].
  rewrite Hm. vm_compute in E. inversion E. vm_compute. reflexivity.
Defined.

(** ** [calloc] *)



(** ** Which entry points initialize the region *)

(** C2, as the code has it.  Once the region is reserved, or when
    [mmap] does not answer 0, every return of [malloc], of [calloc], and
    of [realloc] on a null pointer or on a size larger than the stored
    one, is a return with the region initialized; and [malloc] does
    return for a request within the address arithmetic in a region with
    its cursor in bounds, the first call of the process included.
    [free], and [realloc] on a non-null pointer with size zero or with a
    size that the stored one covers, return with the state untouched:
    they do not call [init]. *)
Theorem allocating_paths_initialize heap s :
  start_addr s <> 0 \/ heap <> 0 ->
  (forall size p s',
      malloc heap size s = Ret p s' -> start_addr s' <> 0) /\
  (forall nmemb size p s',
      calloc heap nmemb size s = Ret p s' -> start_addr s' <> 0) /\
  (forall size p s',
      realloc heap NULL size s = Ret p s' -> start_addr s' <> 0) /\
  (forall ptr size p s',
      ptr <> NULL ->
      load_size (mem s) (size_t (ptr - sizeof_header)) < size ->
      realloc heap ptr size s = Ret p s' -> start_addr s' <> 0) /\
  (mmap_ok heap -> region_inv heap s ->
   forall size, in_range size -> fits heap size ->
     exists p s', malloc heap size s = Ret p s') /\
  (forall ptr, free ptr s = Ret tt s) /\
  (forall ptr, ptr <> NULL -> realloc heap ptr 0 s = Ret NULL s) /\
  (forall ptr size,
      ptr <> NULL -> size <> 0 ->
      size <= load_size (mem s) (size_t (ptr - sizeof_header)) ->
      realloc heap ptr size s = Ret ptr s).
Proof.
  intros Hinit.
  assert (Hmalloc : forall size p s',
             malloc heap size s = Ret p s' -> start_addr s' <> 0).
  { intros size p s' Hm. apply malloc_inv in Hm.
    destruct Hm as [s0 [E Hcases]].
    assert (Hs0 : start_addr s0 <> 0).
    { destruct Hinit as [Hs|Hh].
      - rewrite (init_initialized heap s Hs) in E. inversion E; subst. exact Hs.
      - exact (init_started heap s tt s0 E Hh). }
    destruct Hcases as [[_ [-> _]] | [_ [-> _]]]; simpl; exact Hs0. }
  split; [exact Hmalloc|].
  split.
  { intros nmemb size p s' Hc. unfold calloc in Hc; unfold_monad.
    destruct (malloc heap (size_t (nmemb * size)) s) as [q sm|] eqn:Hm;
      [|discriminate].
    pose proof (Hmalloc _ _ _ Hm) as Hst.
    destruct (negb (q =? NULL)); simpl in Hc; inversion Hc; subst; exact Hst. }
  split.
  { intros size p s' Hr. unfold realloc in Hr. simpl in Hr.
    exact (Hmalloc _ _ _ Hr). }
  split.
  { intros ptr size p s' Hptr Hgrow Hr.
    pose proof (load_size_range (mem s) (size_t (ptr - sizeof_header))) as Hrange.
    unfold realloc in Hr; unfold_monad.
    destruct (Z.eqb_spec ptr NULL); [contradiction|].
    destruct (Z.eqb_spec size 0); [unfold in_range in Hrange; lia|].
    destruct (Z.leb_spec size (load_size (mem s) (size_t (ptr - sizeof_header))));
      [lia|].
    destruct (malloc heap size s) as [q sm|] eqn:Hm; [|discriminate].
    pose proof (Hmalloc _ _ _ Hm) as Hst.
    destruct (negb (q =? NULL)); simpl in Hr; inversion Hr; subst; exact Hst. }
  split.
  { intros Hok Hinv size _ _.
    destruct (init_cases heap s) as [[_ E]|[[_ [_ E]]|[Hs [Hh _]]]].
    - exact (malloc_returns heap size s tt _ E).
    - exact (malloc_returns heap size s tt _ E).
    - exfalso. unfold mmap_ok, MAP_FAILED in *. lia. }
  split; [reflexivity|].
  split.
  { intros ptr Hptr. unfold realloc.
    destruct (Z.eqb_spec ptr NULL); [contradiction | reflexivity]. }
  intros ptr size Hptr Hsz Hle. unfold realloc; unfold_monad.
  destruct (Z.eqb_spec ptr NULL); [contradiction|].
  destruct (Z.eqb_spec size 0); [contradiction|].
  destruct (Z.leb_spec size (load_size (mem s) (size_t (ptr - sizeof_header))));
    [reflexivity | lia].
Qed.

Lemma allocating_paths_initialize_witness :
  (start_addr initial_state <> 0 \/ heap0 <> 0) /\
  malloc heap0 24 initial_state = Ret (heap0 + 16) (committed fresh0 24) /\
  start_addr (committed fresh0 24) <> 0.
Proof.
  assert (H : start_addr initial_state <> 0 \/ heap0 <> 0)
    by (right; vm_compute; discriminate).
  assert (Hm : malloc heap0 24 initial_state
               = Ret (heap0 + 16) (committed fresh0 24)) by (vm_compute; reflexivity).
  repeat (split; [assumption|]).
  exact (proj1 (allocating_paths_initialize heap0 initial_state H) 24 _ _ Hm).
Defined.

(** C2 as stated fails for the deallocation routine: called first, it
    returns with [start_addr] still at the unset sentinel 0, although
    the reservation would have succeeded. *)
Lemma free_leaves_uninitialized :
  heap0 <> MAP_FAILED /\ heap0 <> 0 /\ valid_call (Free (heap0 + 16)) /\
  exists s', run heap0 (Free (heap0 + 16)) initial_state = Ret NULL s' /\
             start_addr s' = 0.
Proof.
  split; [vm_compute; discriminate|].
  split; [vm_compute; discriminate|].
  split; [vm_compute; split; [discriminate | reflexivity]|].
  exists initial_state. split; reflexivity.
Qed.

(** ** The cursor *)

Section Cursor.

Variable heap : Z.
Hypothesis heap_ok : mmap_ok heap.

Lemma region_inv_initial : region_inv heap initial_state.
Proof. left. repeat split. Qed.

Lemma init_region s u s0 :
  region_inv heap s -> init heap s = Ret u s0 ->
  initialized heap s0 /\ free_addr s <= free_addr s0.
Proof.
  intros Hinv E. unfold mmap_ok in heap_ok.
  destruct Hinv as [[Hs [Hf He]] | [Hs [He Hf]]].
  - destruct (init_cases heap s) as [[Hs' _]|[[_ [_ E']]|[_ [_ E']]]];
      [contradiction | | rewrite E' in E; discriminate].
    rewrite E' in E. inversion E; subst. unfold initialized; simpl.
    rewrite HEAP_SIZE_eq in *. mach_lia.
  - rewrite init_initialized in E by (unfold mmap_ok in *; lia).
    inversion E; subst. unfold initialized. lia.
Qed.

Lemma padded_initialized s :
  initialized heap s ->
  padded s = free_addr s + padding_of (free_addr s) /\
  free_addr s <= padded s <= end_addr s + sizeof_header.
Proof.
  intros [Hs [He Hf]]. unfold mmap_ok in heap_ok.
  pose proof (padding_range (free_addr s)) as Hr.
  pose proof (padding_aligns (free_addr s)) as Ha.
  assert (Hp : padded s = free_addr s + padding_of (free_addr s)).
  { apply padded_nowrap; rewrite HEAP_SIZE_eq in *; unfold_mach; lia. }
  split; [exact Hp|]. rewrite Hp.
  rewrite He, HEAP_SIZE_eq in *.
  generalize dependent (padding_of (free_addr s)). intros pad _ Hr Ha.
  unfold_mach. Z.to_euclidean_division_equations. lia.
Qed.

Lemma bumped_fits s size :
  initialized heap s -> in_range size -> fits heap size ->
  bumped s size = padded s + sizeof_header + size.
Proof.
  intros Hi Hsz Hfit. destruct (padded_initialized s Hi) as [_ Hp].
  destruct Hi as [Hs [He Hf]]. unfold mmap_ok, fits in *.
  unfold bumped. generalize dependent (padded s). intros c Hc.
  rewrite He, HEAP_SIZE_eq in *. unfold_mach.
  Z.to_euclidean_division_equations. lia.
Qed.

Lemma malloc_region size s p s' :
  region_inv heap s -> in_range size -> fits heap size ->
  malloc heap size s = Ret p s' ->
  initialized heap s' /\ free_addr s <= free_addr s'.
Proof.
  intros Hinv Hsz Hfit Hm. apply malloc_inv in Hm.
  destruct Hm as [s0 [E Hcases]].
  destruct (init_region s tt s0 Hinv E) as [Hi Hmono].
  destruct (padded_initialized s0 Hi) as [_ Hp].
  pose proof (bumped_fits s0 size Hi Hsz Hfit) as Hb.
  destruct Hi as [Hs [He Hf]].
  destruct Hcases as [[_ [-> _]] | [_ [-> [Hnz Hle]]]];
    unfold initialized, refused, committed; simpl.
  - lia.
  - unfold in_range, sizeof_header in *. lia.
Qed.

Lemma run_region c s r s' :
  region_inv heap s -> valid_call c -> fits heap (request c) ->
  run heap c s = Ret r s' ->
  region_inv heap s' /\ free_addr s <= free_addr s'.
Proof.
  intros Hinv Hv Hfit Hrun. destruct c as [size|ptr|nmemb size|ptr size]; simpl in *.
  - destruct (malloc_region size s r s' Hinv Hv Hfit Hrun) as [Hi Hmono].
    split; [right; exact Hi | exact Hmono].
  - inversion Hrun; subst. split; [exact Hinv | lia].
  - unfold calloc in Hrun; unfold_monad.
    destruct (malloc heap (size_t (nmemb * size)) s) as [p sm|] eqn:Hm;
      [|discriminate].
    destruct (malloc_region _ s p sm Hinv (size_t_range _) Hfit Hm) as [Hi Hmono].
    destruct (negb (p =? NULL)); simpl in Hrun; inversion Hrun; subst;
      (split; [right; exact Hi | exact Hmono]).
  - unfold realloc in Hrun; unfold_monad.
    destruct (ptr =? NULL).
    { destruct (malloc_region size s r s' Hinv (proj2 Hv) Hfit Hrun) as [Hi Hmono].
      split; [right; exact Hi | exact Hmono]. }
    destruct (size =? 0).
    { inversion Hrun; subst. split; [exact Hinv | lia]. }
    destruct (size <=? _).
    { inversion Hrun; subst. split; [exact Hinv | lia]. }
    destruct (malloc heap size s) as [p sm|] eqn:Hm; [|discriminate].
    destruct (malloc_region size s p sm Hinv (proj2 Hv) Hfit Hm) as [Hi Hmono].
    destruct (negb (p =? NULL)); simpl in Hrun; inversion Hrun; subst;
      (split; [right; exact Hi | exact Hmono]).
Qed.

Lemma reachable_fit_region s : reachable_fit heap s -> region_inv heap s.
Proof.
  induction 1 as [|s c r s' _ IH Hv Hfit Hrun].
  - apply region_inv_initial.
  - exact (proj1 (run_region c s r s' IH Hv Hfit Hrun)).
Qed.

Lemma region_inv_bounds s :
  region_inv heap s ->
  start_addr s <= free_addr s <= end_addr s + sizeof_header.
Proof.
  intros [[-> [-> ->]] | [_ [_ H]]]; [unfold sizeof_header; lia | exact H].
Qed.

End Cursor.

(** C1, as the code has it.  Along calls whose request fits the address
    arithmetic, the cursor never decreases and stays at or above
    [start_addr]; it stays at or below [end_addr + sizeof_header], not
    [end_addr]: the alignment padding is added before the bound is
    checked, and is kept when the request is refused. *)
Theorem cursor_monotone_bounded heap s c r s' :
  mmap_ok heap ->
  reachable_fit heap s -> valid_call c -> fits heap (request c) ->
  run heap c s = Ret r s' ->
  free_addr s <= free_addr s' /\
  start_addr s <= free_addr s <= end_addr s + sizeof_header /\
  start_addr s' <= free_addr s' <= end_addr s' + sizeof_header.
Proof.
  intros Hok Hreach Hv Hfit Hrun.
  pose proof (reachable_fit_region heap Hok s Hreach) as Hinv.
  destruct (run_region heap Hok c s r s' Hinv Hv Hfit Hrun) as [Hinv' Hmono].
  split; [exact Hmono|].
  split; apply (region_inv_bounds heap); assumption.
Qed.


Lemma mmap_ok_heap0 : mmap_ok heap0.
Proof. vm_compute. repeat split. Qed.

Lemma cursor_monotone_bounded_witness :
  mmap_ok heap0 /\ reachable_fit heap0 initial_state /\
  valid_call (Malloc 24) /\ fits heap0 (request (Malloc 24)) /\
  run heap0 (Malloc 24) initial_state = Ret (heap0 + 16) (committed fresh0 24) /\
  free_addr initial_state <= free_addr (committed fresh0 24).
Proof.
  assert (H1 : mmap_ok heap0) by exact mmap_ok_heap0.
  assert (H2 : reachable_fit heap0 initial_state) by constructor.
  assert (H3 : valid_call (Malloc 24)) by (vm_compute; split; [discriminate | reflexivity]).
  assert (H4 : fits heap0 (request (Malloc 24))) by (vm_compute; reflexivity).
  assert (H5 : run heap0 (Malloc 24) initial_state
               = Ret (heap0 + 16) (committed fresh0 24)) by (vm_compute; reflexivity).
  repeat (split; [assumption|]).
  exact (proj1 (cursor_monotone_bounded heap0 initial_state (Malloc 24) _ _
                  H1 H2 H3 H4 H5)).
Defined.

(** C1 as stated fails: after [malloc(HEAP_SIZE - 16)] has taken the
    region up to its end, [malloc(0)] adds 8 bytes of padding and leaves
    the cursor above [end_addr]. *)
Lemma cursor_passes_end :
  mmap_ok heap0 /\ reachable heap0 full0 /\ valid_call (Malloc 0) /\
  exists s', run heap0 (Malloc 0) full0 = Ret NULL s' /\
             free_addr full0 = end_addr full0 /\
             free_addr s' = end_addr s' + 8 /\
             ~ (start_addr s' <= free_addr s' <= end_addr s').
Proof.
  split; [exact mmap_ok_heap0|].
  split.
  { apply (reachable_call heap0 initial_state
             (Malloc (HEAP_SIZE - DBL_WORD_SIZE)) (heap0 + 16)).
    - constructor.
    - vm_compute. split; [discriminate | reflexivity].
    - vm_compute. reflexivity. }
  split; [vm_compute; split; [discriminate | reflexivity]|].
  exists (refused full0).
  split; [vm_compute; reflexivity|].
  split; [vm_compute; reflexivity|].
  split; [vm_compute; reflexivity|].
  vm_compute. intros [_ H]. apply H. reflexivity.
Qed.

(** ** [realloc]: the growth path *)

Lemma realloc_growth_unfold heap ptr old new s :
  ptr <> NULL ->
  load_size (mem s) (size_t (ptr - sizeof_header)) = old ->
  old < new ->
  realloc heap ptr new s =
  (new_ptr <- malloc heap new ;;
   (if negb (new_ptr =? NULL) then memcpy new_ptr ptr old ;;; free ptr
    else ret tt) ;;;
   ret new_ptr) s.
Proof.
  intros Hptr Hold Hgrow.
  pose proof (load_size_range (mem s) (size_t (ptr - sizeof_header))) as Hr.
  unfold realloc; unfold_monad.
  destruct (Z.eqb_spec ptr NULL); [contradiction|].
  destruct (Z.eqb_spec new 0); [unfold in_range in Hr; lia|].
  rewrite Hold.
  destruct (Z.leb_spec new old); [lia | reflexivity].
Qed.


(** ** [malloc]: exhaustion and non-overlap *)

Section Blocks.

Variable heap : Z.
Hypothesis heap_ok : mmap_ok heap.

(** A request that fits the address arithmetic and does not fit the
    region is refused: [NULL], the cursor at its padded position, memory
    untouched. *)
Lemma malloc_refuses_beyond_end size s s0 :
  region_inv heap s -> init heap s = Ret tt s0 ->
  in_range size -> size <> 0 -> fits heap size ->
  padded s0 + sizeof_header + size > end_addr s0 ->
  malloc heap size s = Ret NULL (refused s0) /\
  free_addr (refused s0) = padded s0 /\ mem (refused s0) = mem s.
Proof.
  intros Hinv E Hsz Hnz Hfit Hover.
  destruct (init_region heap heap_ok s tt s0 Hinv E) as [Hi _].
  pose proof (bumped_fits heap heap_ok s0 size Hi Hsz Hfit) as Hb.
  split; [|split].
  - apply (malloc_exhausted heap size s tt s0 E Hnz). lia.
  - reflexivity.
  - exact (init_mem heap s tt s0 E).
Qed.

(** A block [malloc] returns lies between the cursor before the call and
    the cursor after it. *)
Lemma malloc_block size s p s' :
  region_inv heap s -> in_range size -> fits heap size ->
  malloc heap size s = Ret p s' -> p <> NULL ->
  free_addr s + sizeof_header <= p /\ p + size = free_addr s'.
Proof.
  intros Hinv Hsz Hfit Hm Hp. apply malloc_inv in Hm.
  destruct Hm as [s0 [E [[-> _] | [-> [-> [Hnz Hle]]]]]]; [contradiction|].
  destruct (init_region heap heap_ok s tt s0 Hinv E) as [Hi Hmono].
  destruct (padded_initialized heap heap_ok s0 Hi) as [_ Hc].
  pose proof (bumped_fits heap heap_ok s0 size Hi Hsz Hfit) as Hb.
  destruct Hi as [Hs [He Hf]]. unfold mmap_ok in heap_ok.
  assert (Hblock : block_of s0 = padded s0 + sizeof_header).
  { unfold block_of. apply size_t_small.
    rewrite He, HEAP_SIZE_eq in *. unfold_mach. lia. }
  simpl. lia.
Qed.

(** X12. A run of [malloc] calls whose requests fit the address
    arithmetic hands out pairwise disjoint payloads: every block lies
    between the cursor before the run and the cursor after it, each one
    above the blocks returned before it, and the cursor never goes
    back. *)
Lemma malloc_seq_blocks sizes : forall s blocks s',
  region_inv heap s ->
  Forall (fun size => in_range size /\ fits heap size) sizes ->
  malloc_seq heap sizes s = Ret blocks s' ->
  region_inv heap s' /\ free_addr s <= free_addr s' /\
  Forall (fun b => fst b <> NULL ->
                   free_addr s + sizeof_header <= fst b /\
                   fst b + snd b <= free_addr s') blocks /\
  ForallOrdPairs (fun b1 b2 => fst b1 <> NULL -> fst b2 <> NULL ->
                               disjoint_ranges b1 b2) blocks.
Proof.
  induction sizes as [|size rest IH]; intros s blocks s' Hinv Hall Hrun;
    simpl in Hrun; unfold_monad.
  - inversion Hrun; subst. repeat split; [exact Hinv | lia | | ]; constructor.
  - inversion Hall as [|? ? [Hsz Hfit] Hrest]; subst.
    destruct (malloc heap size s) as [p s1|] eqn:Hm; [|discriminate].
    destruct (malloc_seq heap rest s1) as [bs s2|] eqn:Hseq; [|discriminate].
    inversion Hrun; subst.
    destruct (malloc_region heap heap_ok size s p s1 Hinv Hsz Hfit Hm) as [Hi1 Hmono1].
    destruct (IH s1 bs s' (or_intror Hi1) Hrest Hseq) as [Hinv' [Hmono' [Hin Hpairs]]].
    split; [exact Hinv'|]. split; [lia|]. split.
    + constructor.
      * simpl. intros Hp.
        destruct (malloc_block size s p s1 Hinv Hsz Hfit Hm Hp). lia.
      * eapply Forall_impl; [|exact Hin]. simpl. intros b Hb Hnn.
        destruct (Hb Hnn). lia.
    + constructor; [|exact Hpairs].
      eapply Forall_impl; [|exact Hin]. simpl. intros b Hb Hp Hnn.
      destruct (malloc_block size s p s1 Hinv Hsz Hfit Hm Hp).
      destruct (Hb Hnn). left. simpl. unfold sizeof_header in *. lia.
Qed.

(** The block a fitting [malloc] has just returned is owned, in a region
    that is reserved with its cursor in bounds: what [realloc] expects
    of its argument. *)
Lemma malloc_owned_block size s p s' :
  region_inv heap s -> in_range size -> fits heap size ->
  malloc heap size s = Ret p s' -> p <> NULL ->
  initialized heap s' /\ owned_block s' p size.
Proof.
  intros Hinv Hsz Hfit Hm Hp.
  destruct (malloc_block size s p s' Hinv Hsz Hfit Hm Hp) as [Hlo Hhi].
  destruct (malloc_region heap heap_ok size s p s' Hinv Hsz Hfit Hm) as [Hi' _].
  split; [exact Hi'|].
  apply malloc_inv in Hm.
  destruct Hm as [s0 [E [[-> _] | [-> [-> [Hnz Hle]]]]]]; [contradiction|].
  destruct (init_region heap heap_ok s tt s0 Hinv E) as [Hi Hmono].
  destruct (padded_initialized heap heap_ok s0 Hi) as [_ Hc].
  pose proof (bumped_fits heap heap_ok s0 size Hi Hsz Hfit) as Hb.
  destruct Hi as [Hs [He Hf]].
  unfold mmap_ok in heap_ok. simpl in *.
  assert (Hblock : block_of s0 = padded s0 + sizeof_header).
  { unfold block_of. apply size_t_small.
    rewrite He, HEAP_SIZE_eq in *. unfold_mach. lia. }
  assert (Hhdr : size_t (padded s0) = padded s0).
  { apply size_t_small. rewrite He, HEAP_SIZE_eq in *. unfold_mach. lia. }
  unfold owned_block; simpl.
  split; [rewrite Hblock; lia|].
  split; [lia|].
  split; [rewrite Hblock; lia|].
  rewrite Hblock.
  replace (padded s0 + sizeof_header - sizeof_header) with (padded s0) by lia.
  rewrite Hhdr. apply load_store_size. exact Hsz.
Qed.

End Blocks.

(** C6 against the code.  On the fresh region, [malloc(SIZE_MAX)] would
    need the cursor to pass [end_addr], yet it returns a non-null block:
    [size + sizeof(header_s)] wraps around to 7, the bound check passes,
    the header is written and the cursor moves to 15 bytes past the
    start, below the block it has just returned. *)
Theorem malloc_size_max_accepted :
  let size := modulus - 1 in
  in_range size /\ 0 < size /\
  padded fresh0 + sizeof_header + size > end_addr fresh0 /\
  malloc heap0 size initial_state = Ret (heap0 + 16) (committed fresh0 size) /\
  heap0 + 16 <> NULL /\
  free_addr (committed fresh0 size) = heap0 + 15 /\
  load_size (mem (committed fresh0 size)) (heap0 + 8) = size.
Proof.
  vm_compute. repeat split; try reflexivity; discriminate.
Qed.

(** C7 against the code.  [malloc(SIZE_MAX - 7)] followed by [malloc(8)]
    on the fresh region: the first request's total size wraps around to
    0, so the cursor does not move, and the second call returns the
    pointer the first one returned. *)
Theorem malloc_seq_returns_block_again :
  exists s',
    malloc_seq heap0 [modulus - 8; 8] initial_state
    = Ret [(heap0 + 16, modulus - 8); (heap0 + 16, 8)] s' /\
    heap0 + 16 <> NULL /\
    ~ disjoint_ranges (heap0 + 16, modulus - 8) (heap0 + 16, 8).
Proof.
  exists (committed (committed fresh0 (modulus - 8)) 8).
  split; [vm_compute; reflexivity|].
  split; [vm_compute; discriminate|].
  vm_compute. intros [H|H]; apply H; reflexivity.
Qed.

(** * Further properties of the allocator *)

(** ** Helpers *)

Lemma header_of_block s :
  size_t (block_of s - sizeof_header) = size_t (padded s).
Proof. mach_lia. Qed.

Lemma committed_header s size :
  in_range size ->
  load_size (mem (committed s size)) (size_t (block_of s - sizeof_header)) = size.
Proof.
  intros Hsz. rewrite header_of_block. simpl. now apply load_store_size.
Qed.

(** A non-null block pointer sits exactly one header above the address
    the header was written to. *)
Lemma block_above_header s :
  block_of s <> NULL -> size_t (padded s) = block_of s - sizeof_header.
Proof. mach_lia. Qed.

Lemma block_of_range s : in_range (block_of s).
Proof. mach_lia. Qed.

Lemma padding_of_settled x : x mod DBL_WORD_SIZE = sizeof_header -> padding_of x = 0.
Proof. mach_lia. Qed.

Lemma set_free_addr_same s : set_free_addr (free_addr s) s = s.
Proof. destruct s; reflexivity. Qed.

(** ** [init] *)

(** X1. [init] is idempotent: once it has returned, a second call
    returns with the same state (no second reservation), provided the
    address [mmap] answered is not 0, the value [init] takes for "not
    yet reserved". *)
Theorem init_idempotent heap s u s0 :
  heap <> 0 -> init heap s = Ret u s0 -> init heap s0 = Ret tt s0.
Proof.
  intros Hh E. apply init_initialized.
  exact (init_started heap s u s0 E Hh).
Qed.

Lemma init_idempotent_witness :
  heap0 <> 0 /\ init heap0 initial_state = Ret tt fresh0 /\
  init heap0 fresh0 = Ret tt fresh0.
Proof.
  assert (H1 : heap0 <> 0) by (vm_compute; discriminate).
  assert (H2 : init heap0 initial_state = Ret tt fresh0) by (vm_compute; reflexivity).
  repeat (split; [assumption|]).
  exact (init_idempotent heap0 initial_state tt fresh0 H1 H2).
Defined.

(** ** The region bounds *)

Lemma malloc_bounds_fixed heap size s p s' :
  start_addr s <> 0 -> malloc heap size s = Ret p s' ->
  start_addr s' = start_addr s /\ end_addr s' = end_addr s.
Proof.
  intros Hs Hm. apply malloc_inv in Hm.
  destruct Hm as [s0 [E Hcases]].
  rewrite (init_initialized heap s Hs) in E. inversion E; subst s0.
  destruct Hcases as [[_ [-> _]] | [_ [-> _]]]; split; reflexivity.
Qed.

(** X2. Once the region is reserved, no entry point, whatever its
    arguments, changes [start_addr] or [end_addr]. *)
Theorem region_bounds_fixed heap c s r s' :
  start_addr s <> 0 -> run heap c s = Ret r s' ->
  start_addr s' = start_addr s /\ end_addr s' = end_addr s.
Proof.
  intros Hs Hrun. destruct c as [size|ptr|nmemb size|ptr size]; simpl in Hrun.
  - exact (malloc_bounds_fixed heap size s r s' Hs Hrun).
  - inversion Hrun; subst. split; reflexivity.
  - unfold calloc in Hrun; unfold_monad.
    destruct (malloc heap (size_t (nmemb * size)) s) as [p sm|] eqn:Hm;
      [|discriminate].
    destruct (malloc_bounds_fixed heap _ s p sm Hs Hm) as [H1 H2].
    destruct (negb (p =? NULL)); simpl in Hrun; inversion Hrun; subst;
      simpl; split; assumption.
  - unfold realloc in Hrun; unfold_monad.
    destruct (ptr =? NULL);
      [exact (malloc_bounds_fixed heap size s r s' Hs Hrun)|].
    destruct (size =? 0); [inversion Hrun; subst; split; reflexivity|].
    destruct (size <=? _); [inversion Hrun; subst; split; reflexivity|].
    destruct (malloc heap size s) as [p sm|] eqn:Hm; [|discriminate].
    destruct (malloc_bounds_fixed heap _ s p sm Hs Hm) as [H1 H2].
    destruct (negb (p =? NULL)); simpl in Hrun; inversion Hrun; subst;
      simpl; split; assumption.
Qed.

Lemma region_bounds_fixed_witness :
  start_addr one_block0 <> 0 /\
  run heap0 (Realloc NULL 12) one_block0
  = Ret (heap0 + 32) (committed one_block0 12) /\
  start_addr (committed one_block0 12) = start_addr one_block0.
Proof.
  assert (H1 : start_addr one_block0 <> 0) by (vm_compute; discriminate).
  assert (H2 : run heap0 (Realloc NULL 12) one_block0
               = Ret (heap0 + 32) (committed one_block0 12))
    by (vm_compute; reflexivity).
  repeat (split; [assumption|]).
  exact (proj1 (region_bounds_fixed heap0 (Realloc NULL 12) one_block0 _ _ H1 H2)).
Defined.

(** ** The header of a block *)

(** X3. The header round trip: when [malloc(size)] returns a block, the
    [size_t] read from the eight bytes below the returned pointer, as
    [realloc] reads it, is [size].  This holds in every state. *)
Theorem malloc_records_size heap size s p s' :
  in_range size -> malloc heap size s = Ret p s' -> p <> NULL ->
  load_size (mem s') (size_t (p - sizeof_header)) = size.
Proof.
  intros Hsz Hm Hp. apply malloc_inv in Hm.
  destruct Hm as [s0 [_ [[-> _] | [-> [-> _]]]]]; [contradiction|].
  now apply committed_header.
Qed.

Lemma malloc_records_size_witness :
  in_range 24 /\
  malloc heap0 24 initial_state = Ret (heap0 + 16) (committed fresh0 24) /\
  heap0 + 16 <> NULL /\
  load_size (mem (committed fresh0 24)) (size_t (heap0 + 16 - sizeof_header)) = 24.
Proof.
  assert (H1 : in_range 24) by (vm_compute; split; [discriminate | reflexivity]).
  assert (H2 : malloc heap0 24 initial_state
               = Ret (heap0 + 16) (committed fresh0 24)) by (vm_compute; reflexivity).
  assert (H3 : heap0 + 16 <> NULL) by (vm_compute; discriminate).
  repeat (split; [assumption|]).
  exact (malloc_records_size heap0 24 initial_state _ _ H1 H2 H3).
Defined.

(** X4. [malloc] writes the header and nothing else: when it returns a
    block [p], every byte outside [[p - 8, p)] is as it was before the
    call; in particular the payload is handed out uninitialized.  This
    holds in every state. *)
Theorem malloc_writes_header_only heap size s p s' :
  malloc heap size s = Ret p s' -> p <> NULL ->
  forall a, ~ (p - sizeof_header <= a < p) -> mem s' a = mem s a.
Proof.
  intros Hm Hp a Ha. apply malloc_inv in Hm.
  destruct Hm as [s0 [E [[-> _] | [-> [-> _]]]]]; [contradiction|].
  rewrite <- (init_mem heap s tt s0 E). simpl.
  rewrite (block_above_header s0 Hp).
  apply store_size_outside. unfold sizeof_header in *. lia.
Qed.

Lemma malloc_writes_header_only_witness :
  malloc heap0 24 one_block0 = Ret (heap0 + 32) (committed one_block0 24) /\
  heap0 + 32 <> NULL /\
  mem (committed one_block0 24) (heap0 + 8) = mem one_block0 (heap0 + 8).
Proof.
  assert (H1 : malloc heap0 24 one_block0
               = Ret (heap0 + 32) (committed one_block0 24)) by (vm_compute; reflexivity).
  assert (H2 : heap0 + 32 <> NULL) by (vm_compute; discriminate).
  repeat (split; [assumption|]).
  apply (malloc_writes_header_only heap0 24 one_block0 _ _ H1 H2).
  vm_compute. intros [H _]. apply H. reflexivity.
Defined.

(** ** [malloc] followed by [realloc] *)

(** X5. A block resized to a size it already covers stays where it is:
    if [malloc(old)] returned the block [p], then [realloc(p, new)] with
    [0 < new <= old] returns [p] and changes nothing.  This holds in
    every state. *)
Theorem malloc_then_realloc_within heap old new s p s1 :
  in_range old -> malloc heap old s = Ret p s1 -> p <> NULL ->
  0 < new <= old ->
  realloc heap p new s1 = Ret p s1.
Proof.
  intros Hold Hm Hp Hnew.
  assert (Hhdr : load_size (mem s1) (size_t (p - sizeof_header)) = old).
  { apply malloc_inv in Hm.
    destruct Hm as [s0 [_ [[-> _] | [-> [-> _]]]]]; [contradiction|].
    now apply committed_header. }
  unfold realloc; unfold_monad.
  destruct (Z.eqb_spec p NULL); [contradiction|].
  destruct (Z.eqb_spec new 0); [lia|].
  rewrite Hhdr.
  destruct (Z.leb_spec new old); [reflexivity | lia].
Qed.

Lemma malloc_then_realloc_within_witness :
  in_range 7 /\ malloc heap0 7 initial_state = Ret (heap0 + 16) one_block0 /\
  heap0 + 16 <> NULL /\ 0 < 5 <= 7 /\
  realloc heap0 (heap0 + 16) 5 one_block0 = Ret (heap0 + 16) one_block0.
Proof.
  assert (H1 : in_range 7) by (vm_compute; split; [discriminate | reflexivity]).
  assert (H2 : malloc heap0 7 initial_state = Ret (heap0 + 16) one_block0)
    by (vm_compute; reflexivity).
  assert (H3 : heap0 + 16 <> NULL) by (vm_compute; discriminate).
  assert (H4 : 0 < 5 <= 7) by lia.
  repeat (split; [assumption|]).
  exact (malloc_then_realloc_within heap0 7 5 initial_state _ _ H1 H2 H3 H4).
Defined.

(** ** Allocation inside a reserved region *)

Section Region.

Variable heap : Z.
Hypothesis heap_ok : mmap_ok heap.

Lemma initialized_init s : initialized heap s -> init heap s = Ret tt s.
Proof.
  intros [Hs _]. apply init_initialized. unfold mmap_ok in heap_ok. lia.
Qed.

Lemma block_of_initialized s :
  initialized heap s -> block_of s = padded s + sizeof_header.
Proof.
  intros Hi. destruct (padded_initialized heap heap_ok s Hi) as [_ Hc].
  destruct Hi as [Hs [He Hf]]. unfold mmap_ok in heap_ok.
  unfold block_of. apply size_t_small.
  rewrite He, HEAP_SIZE_eq in *. unfold_mach. lia.
Qed.

(** X6. Growing a block puts the new block wholly above the old one:
    if [malloc(old)] returned [p] and [realloc(p, new)] with [new > old]
    returns a block [q], then [q] starts at least one header past the
    end of the old payload, so the ranges [memcpy] copies between do not
    overlap, and the new payload ends at the cursor. *)
Theorem realloc_grow_above_old_block old new s p s1 q s2 :
  region_inv heap s -> in_range old -> fits heap old ->
  malloc heap old s = Ret p s1 -> p <> NULL ->
  old < new -> in_range new -> fits heap new ->
  realloc heap p new s1 = Ret q s2 -> q <> NULL ->
  p + old + sizeof_header <= q /\ q + new = free_addr s2.
Proof.
  intros Hinv Hold Hfit Hm Hp Hgrow Hnew Hfit' Hr Hq.
  destruct (malloc_block heap heap_ok old s p s1 Hinv Hold Hfit Hm Hp) as [_ Hend].
  destruct (malloc_region heap heap_ok old s p s1 Hinv Hold Hfit Hm) as [Hi1 _].
  assert (Hhdr : load_size (mem s1) (size_t (p - sizeof_header)) = old).
  { apply malloc_inv in Hm.
    destruct Hm as [s0 [_ [[-> _] | [-> [-> _]]]]]; [contradiction|].
    now apply committed_header. }
  rewrite (realloc_growth_unfold heap p old new s1 Hp Hhdr Hgrow) in Hr.
  unfold_monad.
  destruct (malloc heap new s1) as [q' sm|] eqn:Hm'; [|discriminate].
  assert (Hqq : q' = q /\ free_addr s2 = free_addr sm).
  { destruct (negb (q' =? NULL)); simpl in Hr; inversion Hr; subst; auto. }
  destruct Hqq as [-> Hcur].
  destruct (malloc_block heap heap_ok new s1 q sm (or_intror Hi1) Hnew Hfit' Hm' Hq)
    as [Hlo Hhi].
  lia.
Qed.

(** X7. Refusal is monotone: once [malloc] has refused a non-zero
    request, it refuses every request at least as large, and these
    calls no longer change the state (the padding has been applied
    already). *)
Theorem refusal_is_monotone n m s s1 :
  region_inv heap s -> in_range n -> n <> 0 -> fits heap n ->
  malloc heap n s = Ret NULL s1 ->
  n <= m -> fits heap m ->
  malloc heap m s1 = Ret NULL s1.
Proof.
  intros Hinv Hn Hnz Hfit Hm Hle Hfit'.
  apply malloc_inv in Hm. destruct Hm as [s0 [E Hcases]].
  destruct (init_region heap heap_ok s tt s0 Hinv E) as [Hi _].
  destruct (padded_initialized heap heap_ok s0 Hi) as [Hpad Hc].
  pose proof (block_of_initialized s0 Hi) as Hblock.
  assert (Hs1 : s1 = refused s0 /\ bumped s0 n > end_addr s0).
  { destruct Hcases as [[_ [-> [H0|Hgt]]] | [Hnull _]].
    - contradiction.
    - auto.
    - exfalso. rewrite Hblock in Hnull. destruct Hi as [Hs [He Hf]].
      unfold mmap_ok in heap_ok. unfold_mach. lia. }
  destruct Hs1 as [-> Hgt].
  assert (Hi1 : initialized heap (refused s0)).
  { destruct Hi as [Hs [He Hf]]. unfold initialized, refused; simpl. lia. }
  assert (Hsame : padded (refused s0) = padded s0).
  { destruct (padded_initialized heap heap_ok _ Hi1) as [Hpad1 _].
    rewrite Hpad1. simpl. rewrite padding_of_settled; [lia|].
    rewrite Hpad. apply padding_aligns. }
  assert (Hm_range : in_range m) by (unfold in_range, fits in *;
    destruct Hi as [Hs [He Hf]]; unfold mmap_ok in heap_ok;
    rewrite HEAP_SIZE_eq in *; unfold_mach; lia).
  pose proof (bumped_fits heap heap_ok s0 n Hi Hn Hfit) as Hb0.
  pose proof (bumped_fits heap heap_ok _ m Hi1 Hm_range Hfit') as Hb1.
  rewrite (malloc_exhausted heap m (refused s0) tt (refused s0)
             (initialized_init _ Hi1)).
  - f_equal. unfold refused at 1. rewrite Hsame.
    change (padded s0) with (free_addr (refused s0)) at 1.
    apply set_free_addr_same.
  - unfold in_range in *. lia.
  - rewrite Hb1, Hsame. simpl. lia.
Qed.

(** X8. Inside a reserved region a request that fits the address
    arithmetic succeeds exactly when it is not zero and the padded
    cursor, the header and the payload together end at or before
    [end_addr]. *)
Theorem malloc_succeeds_iff size s s0 p s' :
  region_inv heap s -> init heap s = Ret tt s0 ->
  in_range size -> fits heap size ->
  malloc heap size s = Ret p s' ->
  (p <> NULL <->
   size <> 0 /\ padded s0 + sizeof_header + size <= end_addr s0).
Proof.
  intros Hinv E Hsz Hfit Hm.
  destruct (init_region heap heap_ok s tt s0 Hinv E) as [Hi _].
  destruct (padded_initialized heap heap_ok s0 Hi) as [_ Hc].
  pose proof (block_of_initialized s0 Hi) as Hblock.
  pose proof (bumped_fits heap heap_ok s0 size Hi Hsz Hfit) as Hb.
  apply malloc_inv in Hm. destruct Hm as [s0' [E' Hcases]].
  rewrite E in E'. inversion E'; subst s0'.
  destruct Hi as [Hs [He Hf]]. unfold mmap_ok in heap_ok.
  destruct Hcases as [[-> [_ [H0|Hgt]]] | [-> [_ [Hnz Hle]]]].
  - split; [contradiction | intros [Hnz _]; contradiction].
  - split; [contradiction | intros [_ Hle]; lia].
  - split; [intros _; split; [exact Hnz | lia]|].
    intros _. rewrite Hblock. unfold_mach. lia.
Qed.

(** X9. The first request of a process, when its size is within the
    address arithmetic ([fits]), gets a block exactly when that size is
    between 1 and [HEAP_SIZE - 16]: the region holds 16 bytes less than
    reserved (8 of padding and the 8 of the header), and the block is
    at [heap + 16].  Sizes whose arithmetic wraps are not covered. *)
Theorem fresh_region_capacity size p s' :
  in_range size -> fits heap size ->
  malloc heap size initial_state = Ret p s' ->
  (p <> NULL <-> 0 < size <= HEAP_SIZE - DBL_WORD_SIZE) /\
  (p <> NULL -> p = heap + DBL_WORD_SIZE).
Proof.
  intros Hsz Hfit Hm.
  apply malloc_inv in Hm. destruct Hm as [s0 [E Hcases]].
  destruct (init_region heap heap_ok _ tt s0 (region_inv_initial heap) E) as [Hi _].
  destruct (padded_initialized heap heap_ok s0 Hi) as [Hpad Hc].
  pose proof (block_of_initialized s0 Hi) as Hblock.
  pose proof (bumped_fits heap heap_ok s0 size Hi Hsz Hfit) as Hb.
  assert (Hfree : free_addr s0 = heap).
  { unfold mmap_ok in heap_ok.
    rewrite init_first in E by (unfold MAP_FAILED; reflexivity || lia).
    inversion E. reflexivity. }
  assert (Hp8 : padded s0 = heap + sizeof_header).
  { rewrite Hpad, Hfree. unfold mmap_ok in heap_ok.
    assert (padding_of heap = 8) by mach_lia. unfold sizeof_header. lia. }
  destruct Hi as [Hs [He Hf]]. unfold mmap_ok in heap_ok.
  rewrite HEAP_SIZE_eq in *.
  destruct Hcases as [[-> [_ [H0|Hgt]]] | [-> [_ [Hnz Hle]]]].
  - split; [split; [contradiction | unfold_mach; lia] | contradiction].
  - split; [split; [contradiction | unfold_mach; lia] | contradiction].
  - rewrite Hblock, Hp8. unfold_mach.
    split; [split; [lia | intros _; lia] | intros _; lia].
Qed.

(** X10. What a block costs: in a reserved region, a successful request
    of [size] bytes moves the cursor forward by [size] plus the 8 bytes
    of the header plus at most 15 bytes of padding, and the payload ends
    exactly at the new cursor. *)
Theorem malloc_overhead size s p s' :
  initialized heap s -> in_range size -> fits heap size ->
  malloc heap size s = Ret p s' -> p <> NULL ->
  size + sizeof_header <= free_addr s' - free_addr s
    <= size + sizeof_header + (DBL_WORD_SIZE - 1) /\
  p + size = free_addr s'.
Proof.
  intros Hi Hsz Hfit Hm Hp.
  destruct (padded_initialized heap heap_ok s Hi) as [Hpad Hc].
  pose proof (padding_range (free_addr s)) as Hr.
  pose proof (block_of_initialized s Hi) as Hblock.
  pose proof (bumped_fits heap heap_ok s size Hi Hsz Hfit) as Hb.
  apply malloc_inv in Hm. destruct Hm as [s0 [E Hcases]].
  rewrite (initialized_init s Hi) in E. inversion E; subst s0.
  destruct Hcases as [[-> _] | [-> [-> _]]]; [contradiction|].
  simpl. unfold DBL_WORD_SIZE, sizeof_header in *. lia.
Qed.

(** X11. In a state with its cursor in bounds ([region_inv]: not yet
    reserved, or reserved with [start_addr <= free_addr <= end_addr + 8],
    as every state reached through fitting requests is) and for a
    request within the address arithmetic, a block lies inside the
    reserved region: the pointer [malloc] returns is at least 16 bytes
    above [start_addr] and the payload ends at or before [end_addr].
    States left by a request whose arithmetic wrapped are not covered. *)
Theorem malloc_inside_region size s p s' :
  region_inv heap s -> in_range size -> fits heap size ->
  malloc heap size s = Ret p s' -> p <> NULL ->
  start_addr s' + DBL_WORD_SIZE <= p /\ p + size <= end_addr s'.
Proof.
  intros Hinv Hsz Hfit Hm Hp.
  apply malloc_inv in Hm. destruct Hm as [s0 [E Hcases]].
  destruct (init_region heap heap_ok s tt s0 Hinv E) as [Hi _].
  destruct (padded_initialized heap heap_ok s0 Hi) as [Hpad Hc].
  pose proof (padding_aligns (free_addr s0)) as Ha.
  pose proof (block_of_initialized s0 Hi) as Hblock.
  pose proof (bumped_fits heap heap_ok s0 size Hi Hsz Hfit) as Hb.
  destruct Hcases as [[-> _] | [-> [-> [_ Hle]]]]; [contradiction|].
  destruct Hi as [Hs [He Hf]]. unfold mmap_ok in heap_ok. simpl.
  rewrite Hblock. rewrite <- Hpad in Ha. rewrite Hs.
  generalize dependent (padded s0). intros c. intros.
  split; [|lia]. unfold_mach. Z.to_euclidean_division_equations. lia.
Qed.


End Region.

Lemma realloc_grow_above_old_block_witness :
  mmap_ok heap0 /\ region_inv heap0 initial_state /\ in_range 7 /\ fits heap0 7 /\
  malloc heap0 7 initial_state = Ret (heap0 + 16) one_block0 /\
  heap0 + 16 <> NULL /\ 7 < 75 /\ in_range 75 /\ fits heap0 75 /\
  realloc heap0 (heap0 + 16) 75 one_block0
  = Ret (heap0 + 32)
        (set_mem (memcpy_bytes (mem (committed one_block0 75))
                    (heap0 + 32) (heap0 + 16) 7) (committed one_block0 75)) /\
  heap0 + 32 <> NULL /\
  heap0 + 16 + 7 + sizeof_header <= heap0 + 32.
Proof.
  assert (H1 : mmap_ok heap0) by exact mmap_ok_heap0.
  assert (H2 : region_inv heap0 initial_state) by apply region_inv_initial.
  assert (H3 : in_range 7) by (vm_compute; split; [discriminate | reflexivity]).
  assert (H4 : fits heap0 7) by (vm_compute; reflexivity).
  assert (H5 : malloc heap0 7 initial_state = Ret (heap0 + 16) one_block0)
    by (vm_compute; reflexivity).
  assert (H6 : heap0 + 16 <> NULL) by (vm_compute; discriminate).
  assert (H7 : 7 < 75) by lia.
  assert (H8 : in_range 75) by (vm_compute; split; [discriminate | reflexivity]).
  assert (H9 : fits heap0 75) by (vm_compute; reflexivity).
  assert (Hm : malloc heap0 75 one_block0
               = Ret (heap0 + 32) (committed one_block0 75))
    by (vm_compute; reflexivity).
  assert (Hh : load_size (mem one_block0) (size_t (heap0 + 16 - sizeof_header)) = 7)
    by (vm_compute; reflexivity).
  assert (H10 : realloc heap0 (heap0 + 16) 75 one_block0
                = Ret (heap0 + 32)
                    (set_mem (memcpy_bytes (mem (committed one_block0 75))
                                (heap0 + 32) (heap0 + 16) 7)
                       (committed one_block0 75))).
  { rewrite (realloc_growth_unfold heap0 _ 7 75 one_block0 H6 Hh H7).
    unfold bind. rewrite Hm. reflexivity. }
  assert (H11 : heap0 + 32 <> NULL) by (vm_compute; discriminate).
  repeat (split; [assumption|]).
  exact (proj1 (realloc_grow_above_old_block heap0 H1 7 75 initial_state _ _ _ _
                  H2 H3 H4 H5 H6 H7 H8 H9 H10 H11)).
Defined.

Lemma refusal_is_monotone_witness :
  mmap_ok heap0 /\ region_inv heap0 full0 /\ in_range 1 /\ 1 <> 0 /\
  fits heap0 1 /\ malloc heap0 1 full0 = Ret NULL (refused full0) /\
  1 <= 64 /\ fits heap0 64 /\
  malloc heap0 64 (refused full0) = Ret NULL (refused full0).
Proof.
  assert (H1 : mmap_ok heap0) by exact mmap_ok_heap0.
  assert (H2 : region_inv heap0 full0)
    by (right; vm_compute; repeat split; discriminate).
  assert (H3 : in_range 1) by (vm_compute; split; [discriminate | reflexivity]).
  assert (H4 : 1 <> 0) by discriminate.
  assert (H5 : fits heap0 1) by (vm_compute; reflexivity).
  assert (H6 : malloc heap0 1 full0 = Ret NULL (refused full0))
    by (vm_compute; reflexivity).
  assert (H7 : 1 <= 64) by lia.
  assert (H8 : fits heap0 64) by (vm_compute; reflexivity).
  repeat (split; [assumption|]).
  exact (refusal_is_monotone heap0 H1 1 64 full0 _ H2 H3 H4 H5 H6 H7 H8).
Defined.

Lemma malloc_succeeds_iff_witness :
  mmap_ok heap0 /\ region_inv heap0 initial_state /\
  init heap0 initial_state = Ret tt fresh0 /\ in_range 24 /\ fits heap0 24 /\
  malloc heap0 24 initial_state = Ret (heap0 + 16) (committed fresh0 24) /\
  (heap0 + 16 <> NULL <->
   24 <> 0 /\ padded fresh0 + sizeof_header + 24 <= end_addr fresh0).
Proof.
  assert (H1 : mmap_ok heap0) by exact mmap_ok_heap0.
  assert (H2 : region_inv heap0 initial_state) by apply region_inv_initial.
  assert (H3 : init heap0 initial_state = Ret tt fresh0) by (vm_compute; reflexivity).
  assert (H4 : in_range 24) by (vm_compute; split; [discriminate | reflexivity]).
  assert (H5 : fits heap0 24) by (vm_compute; reflexivity).
  assert (H6 : malloc heap0 24 initial_state
               = Ret (heap0 + 16) (committed fresh0 24)) by (vm_compute; reflexivity).
  repeat (split; [assumption|]).
  exact (malloc_succeeds_iff heap0 H1 24 initial_state fresh0 _ _ H2 H3 H4 H5 H6).
Defined.

Lemma fresh_region_capacity_witness :
  mmap_ok heap0 /\ in_range (HEAP_SIZE - 15) /\ fits heap0 (HEAP_SIZE - 15) /\
  malloc heap0 (HEAP_SIZE - 15) initial_state = Ret NULL (refused fresh0) /\
  (NULL <> NULL <-> 0 < HEAP_SIZE - 15 <= HEAP_SIZE - DBL_WORD_SIZE).
Proof.
  assert (H1 : mmap_ok heap0) by exact mmap_ok_heap0.
  assert (H2 : in_range (HEAP_SIZE - 15))
    by (vm_compute; split; [discriminate | reflexivity]).
  assert (H3 : fits heap0 (HEAP_SIZE - 15)) by (vm_compute; reflexivity).
  assert (H4 : malloc heap0 (HEAP_SIZE - 15) initial_state
               = Ret NULL (refused fresh0)) by (vm_compute; reflexivity).
  repeat (split; [assumption|]).
  exact (proj1 (fresh_region_capacity heap0 H1 (HEAP_SIZE - 15) _ _ H2 H3 H4)).
Defined.

Lemma initialized_one_block0 : initialized heap0 one_block0.
Proof. vm_compute. repeat split; discriminate. Qed.

Lemma malloc_overhead_witness :
  mmap_ok heap0 /\ initialized heap0 one_block0 /\ in_range 24 /\ fits heap0 24 /\
  malloc heap0 24 one_block0 = Ret (heap0 + 32) (committed one_block0 24) /\
  heap0 + 32 <> NULL /\
  heap0 + 32 + 24 = free_addr (committed one_block0 24).
Proof.
  assert (H1 : mmap_ok heap0) by exact mmap_ok_heap0.
  assert (H2 : initialized heap0 one_block0) by exact initialized_one_block0.
  assert (H3 : in_range 24) by (vm_compute; split; [discriminate | reflexivity]).
  assert (H4 : fits heap0 24) by (vm_compute; reflexivity).
  assert (H5 : malloc heap0 24 one_block0
               = Ret (heap0 + 32) (committed one_block0 24)) by (vm_compute; reflexivity).
  assert (H6 : heap0 + 32 <> NULL) by (vm_compute; discriminate).
  repeat (split; [assumption|]).
  exact (proj2 (malloc_overhead heap0 H1 24 one_block0 _ _ H2 H3 H4 H5 H6)).
Defined.

Lemma malloc_inside_region_witness :
  mmap_ok heap0 /\ region_inv heap0 initial_state /\
  in_range (HEAP_SIZE - 16) /\ fits heap0 (HEAP_SIZE - 16) /\
  malloc heap0 (HEAP_SIZE - 16) initial_state = Ret (heap0 + 16) full0 /\
  heap0 + 16 <> NULL /\
  start_addr full0 + DBL_WORD_SIZE <= heap0 + 16 /\
  heap0 + 16 + (HEAP_SIZE - 16) <= end_addr full0.
Proof.
  assert (H1 : mmap_ok heap0) by exact mmap_ok_heap0.
  assert (H2 : region_inv heap0 initial_state) by apply region_inv_initial.
  assert (H3 : in_range (HEAP_SIZE - 16))
    by (vm_compute; split; [discriminate | reflexivity]).
  assert (H4 : fits heap0 (HEAP_SIZE - 16)) by (vm_compute; reflexivity).
  assert (H5 : malloc heap0 (HEAP_SIZE - 16) initial_state = Ret (heap0 + 16) full0)
    by (vm_compute; reflexivity).
  assert (H6 : heap0 + 16 <> NULL) by (vm_compute; discriminate).
  repeat (split; [assumption|]).
  exact (malloc_inside_region heap0 H1 (HEAP_SIZE - 16) initial_state _ _
           H2 H3 H4 H5 H6).
Defined.


Lemma malloc_seq_blocks_witness :
  mmap_ok heap0 /\ region_inv heap0 initial_state /\
  Forall (fun size => in_range size /\ fits heap0 size) [24; 19; 32] /\
  malloc_seq heap0 [24; 19; 32] initial_state
  = Ret [(heap0 + 16, 24); (heap0 + 48, 19); (heap0 + 80, 32)]
        (committed (committed (committed fresh0 24) 19) 32) /\
  ForallOrdPairs (fun b1 b2 => fst b1 <> NULL -> fst b2 <> NULL ->
                               disjoint_ranges b1 b2)
    [(heap0 + 16, 24); (heap0 + 48, 19); (heap0 + 80, 32)].
Proof.
  assert (H1 : mmap_ok heap0) by exact mmap_ok_heap0.
  assert (H2 : region_inv heap0 initial_state) by apply region_inv_initial.
  assert (H3 : Forall (fun size => in_range size /\ fits heap0 size) [24; 19; 32])
    by (repeat constructor; vm_compute; try discriminate; reflexivity).
  assert (H4 : malloc_seq heap0 [24; 19; 32] initial_state
               = Ret [(heap0 + 16, 24); (heap0 + 48, 19); (heap0 + 80, 32)]
                   (committed (committed (committed fresh0 24) 19) 32))
    by (vm_compute; reflexivity).
  repeat (split; [assumption|]).
  exact (proj2 (proj2 (proj2
           (malloc_seq_blocks heap0 H1 [24; 19; 32] initial_state _ _ H2 H3 H4)))).
Defined.

(** ** [calloc] and the pointers returned *)

(** X13. The header of a [calloc] block records the product modulo
    [2^64], and the zero-fill does not reach it: read as [realloc] reads
    it, the size below the returned pointer is [nmemb * size] reduced to
    a [size_t].  This holds in every state. *)
Theorem calloc_records_total heap nmemb size s p s' :
  calloc heap nmemb size s = Ret p s' -> p <> NULL ->
  load_size (mem s') (size_t (p - sizeof_header)) = size_t (nmemb * size).
Proof.
  intros Hc Hp. unfold calloc in Hc; unfold_monad.
  destruct (malloc heap (size_t (nmemb * size)) s) as [q sm|] eqn:Hm;
    [|discriminate].
  assert (Hq : q = p) by (destruct (negb (q =? NULL)); simpl in Hc; now inversion Hc).
  subst q.
  destruct (Z.eqb_spec p NULL); [contradiction|]. simpl in Hc.
  inversion Hc; subst s'. clear Hc.
  apply malloc_inv in Hm.
  destruct Hm as [s0 [_ [[-> _] | [-> [-> _]]]]]; [contradiction|].
  transitivity (load_size (mem (committed s0 (size_t (nmemb * size))))
                  (size_t (block_of s0 - sizeof_header)));
    [|apply committed_header, size_t_range].
  apply load_size_ext. intros x Hx.
  unfold set_mem, memset_bytes; simpl mem.
  rewrite header_of_block, (block_above_header s0 Hp) in Hx.
  destruct (Z.leb_spec (block_of s0) x); [lia | reflexivity].
Qed.

Lemma calloc_records_total_witness :
  exists s', calloc heap0 3 4 one_block0 = Ret (heap0 + 32) s' /\
             heap0 + 32 <> NULL /\
             load_size (mem s') (size_t (heap0 + 32 - sizeof_header)) = 12.
Proof.
  assert (Hm : malloc heap0 (size_t (3 * 4)) one_block0
               = Ret (heap0 + 32) (committed one_block0 12))
    by (vm_compute; reflexivity).
  assert (Hc : calloc heap0 3 4 one_block0
               = Ret (heap0 + 32)
                   (set_mem (memset_bytes (mem (committed one_block0 12))
                               (heap0 + 32) Byte.x00 (size_t (3 * 4)))
                      (committed one_block0 12)))
    by (unfold calloc, bind; rewrite Hm; reflexivity).
  assert (Hp : heap0 + 32 <> NULL) by (vm_compute; discriminate).
  eexists. split; [exact Hc|]. split; [exact Hp|].
  exact (calloc_records_total heap0 3 4 one_block0 _ _ Hc Hp).
Defined.

(** X14. A zero product gives no block: when [nmemb * size] is 0 modulo
    [2^64] (a zero count, a zero element size, or a product that wraps
    to 0), [calloc] returns [NULL] and leaves memory as it was. *)
Theorem calloc_zero_total_null heap nmemb size s p s' :
  size_t (nmemb * size) = 0 ->
  calloc heap nmemb size s = Ret p s' ->
  p = NULL /\ mem s' = mem s.
Proof.
  intros Hz Hc. unfold calloc in Hc; unfold_monad. rewrite Hz in Hc.
  destruct (malloc heap 0 s) as [q sm|] eqn:Hm; [|discriminate].
  apply malloc_inv in Hm.
  destruct Hm as [s0 [E [[-> [-> _]] | [_ [_ [Hnz _]]]]]]; [|contradiction].
  simpl in Hc. inversion Hc; subst. split; [reflexivity|].
  exact (init_mem heap s tt s0 E).
Qed.

Lemma calloc_zero_total_null_witness :
  size_t (4294967296 * 4294967296) = 0 /\
  calloc heap0 4294967296 4294967296 one_block0 = Ret NULL (refused one_block0) /\
  mem (refused one_block0) = mem one_block0.
Proof.
  assert (H1 : size_t (4294967296 * 4294967296) = 0) by (vm_compute; reflexivity).
  assert (H2 : calloc heap0 4294967296 4294967296 one_block0
               = Ret NULL (refused one_block0)) by (vm_compute; reflexivity).
  repeat (split; [assumption|]).
  exact (proj2 (calloc_zero_total_null heap0 _ _ one_block0 _ _ H1 H2)).
Defined.

(** X15. Every pointer an entry point returns is double-word aligned,
    whatever the state and the sizes, as long as the pointer handed to
    [realloc] is: [malloc] and [calloc] return [NULL] or an aligned
    block, and [realloc] returns [NULL], its argument or a block of
    [malloc]. *)
Theorem returned_pointers_aligned heap c s r s' :
  aligned_args c -> run heap c s = Ret r s' -> r mod DBL_WORD_SIZE = 0.
Proof.
  intros Hal Hrun.
  assert (Hmalloc : forall size st p st',
            malloc heap size st = Ret p st' -> p mod DBL_WORD_SIZE = 0).
  { intros size st p st' Hm. apply malloc_inv in Hm.
    destruct Hm as [s0 [_ [[-> _] | [-> _]]]];
      [reflexivity | apply block_of_aligned]. }
  destruct c as [size|ptr|nmemb size|ptr size]; simpl in *.
  - exact (Hmalloc _ _ _ _ Hrun).
  - inversion Hrun. reflexivity.
  - unfold calloc in Hrun; unfold_monad.
    destruct (malloc heap (size_t (nmemb * size)) s) as [p sm|] eqn:Hm;
      [|discriminate].
    pose proof (Hmalloc _ _ _ _ Hm) as Hp.
    destruct (negb (p =? NULL)); simpl in Hrun; inversion Hrun; subst; exact Hp.
  - unfold realloc in Hrun; unfold_monad.
    destruct (ptr =? NULL); [exact (Hmalloc _ _ _ _ Hrun)|].
    destruct (size =? 0); [inversion Hrun; reflexivity|].
    destruct (size <=? _); [inversion Hrun; subst; exact Hal|].
    destruct (malloc heap size s) as [p sm|] eqn:Hm; [|discriminate].
    pose proof (Hmalloc _ _ _ _ Hm) as Hp.
    destruct (negb (p =? NULL)); simpl in Hrun; inversion Hrun; subst; exact Hp.
Qed.

Lemma returned_pointers_aligned_witness :
  aligned_args (Realloc (heap0 + 16) 5) /\
  run heap0 (Realloc (heap0 + 16) 5) one_block0 = Ret (heap0 + 16) one_block0 /\
  (heap0 + 16) mod DBL_WORD_SIZE = 0.
Proof.
  assert (H1 : aligned_args (Realloc (heap0 + 16) 5)) by (vm_compute; reflexivity).
  assert (H2 : run heap0 (Realloc (heap0 + 16) 5) one_block0
               = Ret (heap0 + 16) one_block0) by (vm_compute; reflexivity).
  repeat (split; [assumption|]).
  exact (returned_pointers_aligned heap0 _ one_block0 _ _ H1 H2).
Defined.

(** ** [realloc]: growth of an owned block *)





(** * The diagnostics of [safeio.c] *)

(** ** [int_to_hex] *)

Lemma hex_value_snoc s c : hex_value (s ++ [c]) = hex_value s * 16 + digit_value c.
Proof. unfold hex_value. rewrite fold_left_app. reflexivity. Qed.

Lemma digit_of_index k :
  (k < 16)%nat -> index_of (nth k hex_digits "0"%char) hex_digits = k.
Proof.
  intros Hk.
  do 16 (destruct k as [|k]; [reflexivity|]). lia.
Qed.

Lemma digit_of_nybble n :
  0 <= n < 16 -> digit_value (nth (Z.to_nat n) hex_digits "0"%char) = n.
Proof.
  intros Hn. unfold digit_value. rewrite digit_of_index by lia. lia.
Qed.

Lemma nybble_of_value v i :
  Z.land (Z.shiftr v (Z.of_nat i * BITS_PER_NYBBLE)) NYBBLE_MASK
  = (v / 16 ^ Z.of_nat i) mod 16.
Proof.
  unfold BITS_PER_NYBBLE, NYBBLE_MASK.
  change 15 with (Z.ones 4). rewrite Z.land_ones by lia.
  rewrite Z.shiftr_div_pow2 by lia.
  replace (Z.of_nat i * 4) with (4 * Z.of_nat i) by lia.
  rewrite Z.pow_mul_r by lia. reflexivity.
Qed.

Lemma value_above_nybble v i :
  0 <= v ->
  v / 16 ^ Z.of_nat i
  = (v / 16 ^ Z.of_nat (S i)) * 16 + (v / 16 ^ Z.of_nat i) mod 16.
Proof.
  intros Hv. rewrite Nat2Z.inj_succ, Z.pow_succ_r by lia.
  rewrite (Z.mul_comm 16), <- Z.div_div by lia.
  pose proof (Z.div_mod (v / 16 ^ Z.of_nat i) 16). lia.
Qed.

Lemma int_to_hex_loop_state v : 0 <= v -> forall n non_zero out,
  hex_state v n non_zero out ->
  hex_state v 0 (fst (int_to_hex_loop n v non_zero out))
              (snd (int_to_hex_loop n v non_zero out)).
Proof.
  intros Hv. induction n as [|i IH]; intros nz out Hst; [exact Hst|].
  cbn [int_to_hex_loop]. rewrite nybble_of_value.
  pose proof (value_above_nybble v i Hv) as Hval.
  pose proof (Z.mod_pos_bound (v / 16 ^ Z.of_nat i) 16 ltac:(lia)) as Hnyb.
  set (nyb := (v / 16 ^ Z.of_nat i) mod 16) in *.
  assert (Hin : In (nth (Z.to_nat nyb) hex_digits "0"%char) hex_digits)
    by (apply nth_In; simpl; lia).
  destruct Hst as [Hall [Hlen Hst]].
  destruct nz; simpl orb.
  - destruct Hst as [Hhex [c [rest [-> Hc]]]].
    apply IH. split; [|split; [|split]].
    + apply Forall_app. split; [exact Hall | constructor; [exact Hin | constructor]].
    + rewrite length_app. simpl in *. lia.
    + rewrite hex_value_snoc, digit_of_nybble, Hhex by exact Hnyb. lia.
    + exists c, (rest ++ [nth (Z.to_nat nyb) hex_digits "0"%char]).
      split; [reflexivity | exact Hc].
  - destruct Hst as [-> Hzero].
    destruct (Z.eqb_spec nyb 0) as [Hz|Hnz]; simpl negb; cbv iota.
    + apply IH. split; [constructor|]. split; [simpl; lia|].
      split; [reflexivity | lia].
    + apply IH. split; [|split; [|split]].
      * constructor; [exact Hin | constructor].
      * simpl in *. lia.
      * rewrite hex_value_snoc, digit_of_nybble by exact Hnyb.
        change (hex_value []) with 0. lia.
      * eexists. exists []. split; [reflexivity|].
        intros Heq. apply Hnz.
        rewrite <- (digit_of_nybble nyb Hnyb), Heq. reflexivity.
Qed.

Lemma int_to_hex_state v :
  in_range v ->
  hex_state v 0 (fst (int_to_hex_loop NYBBLES_PER_WORD v false []))
              (snd (int_to_hex_loop NYBBLES_PER_WORD v false [])).
Proof.
  intros Hv. apply int_to_hex_loop_state; [unfold in_range in Hv; lia|].
  split; [constructor|]. split; [unfold NYBBLES_PER_WORD; simpl; lia|].
  split; [reflexivity|].
  apply Z.div_small. exact Hv.
Qed.

(** X17. The round trip of [int_to_hex]: for every [uint64_t] value, the
    digits left in the buffer, read as a hexadecimal numeral, give the
    value back. *)
Theorem int_to_hex_round_trip v :
  in_range v -> hex_value (int_to_hex v) = v.
Proof.
  intros Hv. pose proof (int_to_hex_state v Hv) as Hst.
  unfold int_to_hex.
  destruct (int_to_hex_loop NYBBLES_PER_WORD v false []) as [nz out].
  destruct Hst as [_ [_ Hst]]. simpl in Hst. rewrite Z.div_1_r in Hst.
  destruct nz; simpl.
  - tauto.
  - destruct Hst as [-> Hz]. rewrite Hz. reflexivity.
Qed.

Lemma int_to_hex_round_trip_witness :
  in_range 3735928559 /\
  int_to_hex 3735928559 = ["d"; "e"; "a"; "d"; "b"; "e"; "e"; "f"]%char /\
  hex_value (int_to_hex 3735928559) = 3735928559.
Proof.
  assert (H1 : in_range 3735928559) by (vm_compute; split; [discriminate | reflexivity]).
  split; [exact H1|]. split; [vm_compute; reflexivity|].
  exact (int_to_hex_round_trip 3735928559 H1).
Defined.

(** X18. The shape of what [int_to_hex] writes: between 1 and 16
    characters (so, with the NUL, well within the 256 bytes of [emit]'s
    buffer), all of them lower-case hexadecimal digits; zero is written
    as the single digit 0 and any other value without a leading 0. *)
Theorem int_to_hex_shape v :
  in_range v ->
  (1 <= length (int_to_hex v) <= 16)%nat /\
  Forall (fun c => In c hex_digits) (int_to_hex v) /\
  (v = 0 -> int_to_hex v = ["0"%char]) /\
  (v <> 0 -> hd "0"%char (int_to_hex v) <> "0"%char).
Proof.
  intros Hv. pose proof (int_to_hex_state v Hv) as Hst.
  unfold int_to_hex.
  destruct (int_to_hex_loop NYBBLES_PER_WORD v false []) as [nz out].
  destruct Hst as [Hall [Hlen Hst]]. simpl in Hst, Hlen. rewrite Z.div_1_r in Hst.
  destruct nz; simpl negb; cbv iota.
  - destruct Hst as [Hhex [c [rest [-> Hc]]]].
    split; [simpl in *; lia|]. split; [exact Hall|]. split.
    + intros ->. exfalso.
      apply Forall_inv in Hall.
      assert (Hnz : hex_value (c :: rest) <> 0); [|congruence].
      clear Hhex Hlen Hv.
      assert (Hd : 0 < digit_value c).
      { simpl in Hall. unfold digit_value.
        repeat (destruct Hall as [<- | Hall];
                [first [congruence | vm_compute; reflexivity]|]).
        contradiction. }
      assert (Hmono : forall s acc, 0 < acc ->
                0 < fold_left (fun acc c => acc * 16 + digit_value c) s acc).
      { induction s as [|d s IHs]; intros acc Hacc; simpl; [exact Hacc|].
        apply IHs. unfold digit_value. lia. }
      unfold hex_value. cbn [fold_left].
      replace (0 * 16 + digit_value c) with (digit_value c) by lia.
      pose proof (Hmono rest _ Hd). lia.
    + intros _. exact Hc.
  - destruct Hst as [-> Hz]. simpl.
    split; [lia|]. split; [repeat constructor|].
    split; [reflexivity | intros Hnz; contradiction].
Qed.

Lemma int_to_hex_shape_witness :
  in_range 0 /\ int_to_hex 0 = ["0"%char].
Proof.
  assert (H1 : in_range 0) by (vm_compute; split; [discriminate | reflexivity]).
  split; [exact H1|].
  exact (proj1 (proj2 (proj2 (int_to_hex_shape 0 H1))) eq_refl).
Defined.

(** ** [emit] *)

Lemma strnlen_le s : forall n, (strnlen s n <= n)%nat /\ (strnlen s n <= length s)%nat.
Proof.
  induction s as [|c s IH]; intros [|n]; simpl; try lia.
  destruct (Ascii.eqb c NUL); [lia|]. destruct (IH n). lia.
Qed.

Lemma strnlen_no_nul s : ~ In NUL s -> forall n, strnlen s n = Nat.min (length s) n.
Proof.
  induction s as [|c s IH]; intros Hnul [|n]; simpl; try reflexivity.
  destruct (Ascii.eqb_spec c NUL) as [->|_]; [exfalso; apply Hnul; left; reflexivity|].
  rewrite IH; [reflexivity|]. intros Hin. apply Hnul. right. exact Hin.
Qed.

Lemma firstn_min_length {A} (l : list A) n : firstn (Nat.min (length l) n) l = firstn n l.
Proof.
  destruct (Nat.le_ge_cases (length l) n) as [Hle|Hge].
  - rewrite Nat.min_l by exact Hle. now rewrite !firstn_all2 by lia.
  - now rewrite Nat.min_r by exact Hge.
Qed.

Lemma In_write_str c s : In c (write_str s) -> In c s.
Proof.
  unfold write_str. intros Hin.
  rewrite <- (firstn_skipn (strnlen s MAX_MESSAGE_LENGTH) s).
  apply in_or_app. left. exact Hin.
Qed.

Lemma length_write_str s : (length (write_str s) <= MAX_MESSAGE_LENGTH)%nat.
Proof.
  unfold write_str. rewrite length_firstn.
  destruct (strnlen_le s MAX_MESSAGE_LENGTH). lia.
Qed.

Lemma hex_digit_plain c :
  In c hex_digits -> c <> NUL /\ c <> "010"%char.
Proof.
  intros Hin. simpl in Hin.
  repeat (destruct Hin as [<- | Hin]; [split; discriminate|]). contradiction.
Qed.

Lemma write_int_to_hex v : in_range v -> write_str (int_to_hex v) = int_to_hex v.
Proof.
  intros Hv.
  destruct (int_to_hex_state v Hv) as [Hall [Hlen Hst]].
  assert (Hshape : Forall (fun c => In c hex_digits) (int_to_hex v) /\
                   (length (int_to_hex v) <= 16)%nat).
  { unfold int_to_hex.
    destruct (int_to_hex_loop NYBBLES_PER_WORD v false []) as [nz out].
    simpl in *. destruct nz; simpl.
    - split; [exact Hall | lia].
    - destruct Hst as [-> _]. split; [repeat constructor | simpl; lia]. }
  destruct Hshape as [Hdigits Hlen'].
  unfold write_str. rewrite strnlen_no_nul.
  - rewrite firstn_min_length. apply firstn_all2.
    unfold MAX_MESSAGE_LENGTH. lia.
  - intros Hin. rewrite Forall_forall in Hdigits.
    destruct (hex_digit_plain NUL (Hdigits NUL Hin)) as [Hne _]. apply Hne. reflexivity.
Qed.

(** X19. [emit] writes one line: the prefix and the message, each cut
    at its first NUL or after 256 characters, then for every integer
    argument a tab and all of its hexadecimal digits, then a newline.
    When neither the prefix nor the message holds a newline, that final
    newline is the only one, and the line is at most
    [2 * 256 + 17 * argc] characters long before it. *)
Theorem emit_one_line prefix msg args :
  ~ In "010"%char prefix -> ~ In "010"%char msg -> Forall in_range args ->
  exists body,
    emit prefix msg args = body ++ NEWLINE_STRING /\
    body = write_str prefix ++ write_str msg ++
           flat_map (fun value => "009"%char :: int_to_hex value) args /\
    ~ In "010"%char body /\
    (length body <= 2 * MAX_MESSAGE_LENGTH + 17 * length args)%nat.
Proof.
  intros Hprefix Hmsg Hargs.
  assert (Hflat : flat_map (fun value => TAB_STRING ++ write_str (int_to_hex value)) args
                  = flat_map (fun value => "009"%char :: int_to_hex value) args /\
                  ~ In "010"%char
                      (flat_map (fun value => "009"%char :: int_to_hex value) args) /\
                  (length (flat_map (fun value => "009"%char :: int_to_hex value) args)
                   <= 17 * length args)%nat).
  { induction Hargs as [|v args Hv _ IH]; [simpl; split; [reflexivity | split; [tauto | lia]]|].
    destruct IH as [IH1 [IH2 IH3]].
    destruct (int_to_hex_state v Hv) as [Hall [Hlen Hst]].
    assert (Hshape : Forall (fun c => In c hex_digits) (int_to_hex v) /\
                     (length (int_to_hex v) <= 16)%nat).
    { unfold int_to_hex.
      destruct (int_to_hex_loop NYBBLES_PER_WORD v false []) as [nz out].
      simpl in *. destruct nz; simpl.
      - split; [exact Hall | lia].
      - destruct Hst as [-> _]. split; [repeat constructor | simpl; lia]. }
    destruct Hshape as [Hdigits Hlen'].
    cbn [flat_map]. rewrite IH1, (write_int_to_hex v Hv).
    split; [reflexivity|]. split.
    - intros Hin. cbn [app] in Hin. destruct Hin as [Hin|Hin]; [discriminate|].
      apply in_app_or in Hin. destruct Hin as [Hin|Hin]; [|exact (IH2 Hin)].
      rewrite Forall_forall in Hdigits.
      destruct (hex_digit_plain _ (Hdigits _ Hin)) as [_ Hne]. apply Hne. reflexivity.
    - cbn [app length]. rewrite length_app. lia. }
  destruct Hflat as [Hflat [Hnl Hlen]].
  eexists. split; [|split; [reflexivity|]].
  - unfold emit. rewrite Hflat, !app_assoc. reflexivity.
  - split.
    + intros Hin. apply in_app_or in Hin. destruct Hin as [Hin|Hin];
        [exact (Hprefix (In_write_str _ _ Hin))|].
      apply in_app_or in Hin. destruct Hin as [Hin|Hin];
        [exact (Hmsg (In_write_str _ _ Hin)) | exact (Hnl Hin)].
    + rewrite !length_app.
      pose proof (length_write_str prefix). pose proof (length_write_str msg). lia.
Qed.

Lemma emit_one_line_witness :
  ~ In "010"%char ["E"; "R"; "R"; "O"; "R"; ":"; " "]%char /\
  ~ In "010"%char ["b"; "a"; "d"]%char /\
  Forall in_range [255] /\
  emit ["E"; "R"; "R"; "O"; "R"; ":"; " "]%char ["b"; "a"; "d"]%char [255]
  = (["E"; "R"; "R"; "O"; "R"; ":"; " "; "b"; "a"; "d"; "009"; "f"; "f"]%char)
      ++ NEWLINE_STRING.
Proof.
  assert (H1 : ~ In "010"%char ["E"; "R"; "R"; "O"; "R"; ":"; " "]%char)
    by (simpl; intros H; repeat (destruct H as [H|H]; [discriminate|]); exact H).
  assert (H2 : ~ In "010"%char ["b"; "a"; "d"]%char)
    by (simpl; intros H; repeat (destruct H as [H|H]; [discriminate|]); exact H).
  assert (H3 : Forall in_range [255])
    by (repeat constructor; vm_compute; discriminate).
  repeat (split; [assumption|]).
  destruct (emit_one_line _ _ _ H1 H2 H3) as [body [He [Hb _]]].
  rewrite He, Hb. vm_compute. reflexivity.
Defined.

(** X20. [emit] cuts what it is given: of a prefix or message it writes
    at most [MAX_MESSAGE_LENGTH] = 256 characters, and of one without a
    NUL exactly its first 256 (all of it when it is no longer). *)
Theorem write_str_truncates s :
  (length (write_str s) <= MAX_MESSAGE_LENGTH)%nat /\
  (~ In NUL s -> write_str s = firstn MAX_MESSAGE_LENGTH s) /\
  (~ In NUL s -> (length s <= MAX_MESSAGE_LENGTH)%nat -> write_str s = s).
Proof.
  split; [apply length_write_str|].
  assert (Hcut : ~ In NUL s -> write_str s = firstn MAX_MESSAGE_LENGTH s).
  { intros Hnul. unfold write_str. rewrite strnlen_no_nul by exact Hnul.
    apply firstn_min_length. }
  split; [exact Hcut|].
  intros Hnul Hlen. rewrite Hcut by exact Hnul. now apply firstn_all2.
Qed.
